(** * Path construction and classification engine (step 6)

    A shallow embedding of [step6_constructPath] and of the helpers it
    calls: [getHighestCvssScoreForDependency], [classifyDependency],
    [initializeQueueWithNestedDeps], [simplifyPath] and [findChildren].

    Conventions.
    - Package names and file names are [string]s.
    - A JavaScript number read from a JSON document is a finite double.
      The engine only takes maxima, tests for zero and looks at the sign
      of a difference, all of which are exact on finite doubles, so
      numbers are rationals [Q].  A [null] score is [None].
    - A JSON object whose key order is observed ([Object.keys]) is an
      association list in key order; an object used only for lookup is a
      [gmap] of its own properties; the [Set] of found names is a [gset].
    - A read [o[k]] of a key that [o] does not own falls through to
      [Object.prototype], and an assignment to [__proto__] goes to its
      setter; both are written out where the engine reads or writes an
      object by a package name.
    - The two [while] loops take fuel; running out of fuel is [None]. *)

From Stdlib Require Import Ascii String QArith Lqa DecimalString Sorted Permutation.
From stdpp Require Import gmap strings list.

Local Open Scope string_scope.
Local Open Scope nat_scope.
Local Open Scope list_scope.

(** ** JavaScript primitives used by the engine *)

Module JS.

(** [s.startsWith(p)] *)
Definition startsWith (s p : string) : bool := String.prefix p s.

Fixpoint string_drop (n : nat) (s : string) : string :=
  match n, s with
  | O, _ => s
  | S n', String _ s' => string_drop n' s'
  | S _, EmptyString => EmptyString
  end.

(** [s.replace(pat, repl)] with a string pattern: only the first
    occurrence of [pat] is replaced. *)
Fixpoint replace (s pat repl : string) : string :=
  if String.prefix pat s then repl +:+ string_drop (String.length pat) s
  else match s with
       | EmptyString => EmptyString
       | String c s' => String c (replace s' pat repl)
       end.

(** [s.split(sep)[0]] for a one-character separator: the part of [s]
    before the first [sep], all of [s] when there is none. *)
Fixpoint split_head (s : string) (sep : ascii) : string :=
  match s with
  | EmptyString => EmptyString
  | String c s' => if Ascii.eqb c sep then EmptyString
                   else String c (split_head s' sep)
  end.

(** [l.includes(x)] on an array of strings *)
Definition includes (l : list string) (x : string) : bool :=
  existsb (String.eqb x) l.

(** [ToNumber] of a JSON number or [null] *)
Definition toNumber (v : option Q) : Q :=
  match v with Some q => q | None => 0%Q end.

(** [Math.max(a, b)] on finite numbers *)
Definition max2 (a b : Q) : Q := if Qle_bool a b then b else a.

(** [Math.max(x, ...rest)] *)
Definition Math_max (x : Q) (rest : list Q) : Q := fold_left max2 rest x.

(** [v || d] on numbers: [0] is the only falsy finite number *)
Definition or_num (v d : Q) : Q := if Qeq_bool v 0 then d else v.

(** [Object.keys(a)] on an array: its indices in decimal *)
Definition array_keys {A} (a : list A) : list string :=
  map (λ i, NilEmpty.string_of_uint (Nat.to_uint i)) (seq 0 (length a)).

(** [Object.keys(o)] on an object given in key order *)
Definition keys {A} (o : list (string * A)) : list string := map fst o.

(** [o[k]] on an object given in key order *)
Fixpoint get {A} (o : list (string * A)) (k : string) : option A :=
  match o with
  | [] => None
  | (k', v) :: o' => if String.eqb k k' then Some v else get o' k
  end.

(** [Array.prototype.sort(cmp)]: ECMAScript requires a stable sort, so
    an element moves behind another only when [cmp] is positive. *)
Section Sort.
Context {A : Type} (cmp : A → A → Q).

Fixpoint insert (x : A) (l : list A) : list A :=
  match l with
  | [] => [x]
  | y :: l' => if Qlt_le_dec 0 (cmp x y) then y :: insert x l'
               else x :: l
  end.

Fixpoint sort (l : list A) : list A :=
  match l with
  | [] => []
  | x :: l' => insert x (sort l')
  end.
End Sort.

(** The property names of [Object.prototype] (Node.js): a read [o[k]]
    of such a [k] that is not an own property of [o] yields the
    inherited function, or for [__proto__] the prototype object. *)
Definition Object_prototype : list string :=
  ["constructor"; "__defineGetter__"; "__defineSetter__"; "hasOwnProperty";
   "__lookupGetter__"; "__lookupSetter__"; "isPrototypeOf";
   "propertyIsEnumerable"; "toString"; "valueOf"; "__proto__";
   "toLocaleString"].

Definition inherited (k : string) : bool := includes Object_prototype k.

(** [String(Object.prototype[k])] for an inherited [k], as Node.js
    prints it: the source text of a native function, whose name is
    [Object] for [constructor] and [k] otherwise, and [[object Object]]
    for the object that [__proto__] yields. *)
Definition inherited_text (k : string) : string :=
  if String.eqb k "__proto__" then "[object Object]"
  else "function "
       +:+ (if String.eqb k "constructor" then "Object" else k)
       +:+ "() { [native code] }".

End JS.

(** ** Data model *)

(** A node of the [npm ls --json] tree; only [dependencies] is read and
    the field may be absent. *)
Unset Elimination Schemes.
Inductive tree : Type :=
  Node (dependencies : option (list (string * tree))).
Set Elimination Schemes.

Definition dependencies (t : tree) : option (list (string * tree)) :=
  match t with Node d => d end.

(** [node.dependencies || {}] *)
Definition deps_or_empty (t : tree) : list (string * tree) :=
  default [] (dependencies t).

Inductive DependencyType : Set :=
  | DEVELOPMENT_ONLY | WITHIN_PROJECT | LAGGING | VULNERABLE | NORMAL.

Global Instance DependencyType_eq_dec : EqDecision DependencyType.
Proof. solve_decision. Defined.

(** One entry of a finding's [vulnerabilities] array *)
Record vuln : Type := { source : string; name : string; severity : string;
                        cvss : option Q }.

(** One element of [step5_output.json] *)
Record finding : Type := { fileName : string; filePath : string;
                           vulnerabilities : list vuln }.

(** The value of [releaseIntervals[dependency] || -1]: a number, or the
    function or object inherited from [Object.prototype] under [key]
    when [releaseIntervals] has no such key of its own. *)
Inductive interval : Type :=
  | Days (q : Q)
  | Inherited (key : string).

Coercion Days : Q >-> interval.

(** The record stored in [report.dependencies] *)
Record DependencyRecord : Type :=
  { dependencyTypes : list DependencyType;
    highestCvssScore : Q;
    intervals : interval }.

(** ** Classifier *)

Definition getHighestCvssScoreForDependency
    (dependency : string) (vulnerabilitiesData : list finding) : Q :=
  let relevantEntries :=
    filter (λ entry, JS.startsWith (fileName entry) dependency = true)
           vulnerabilitiesData in
  let scores :=
    flat_map (λ entry, map (λ v, JS.toNumber (cvss v)) (vulnerabilities entry))
             relevantEntries in
  JS.Math_max (-1) scores.

Definition push_if (b : bool) (ty : DependencyType)
    (types : list DependencyType) : list DependencyType :=
  if b then types ++ [ty] else types.

Definition classifyDependency (dependency : string)
    (devDependencies withinProjectDependencies laggingDependencies
       vulnerabilities : list string)
    (vulnerabilitiesData : list finding)
    (releaseIntervals : gmap string Q) : DependencyRecord :=
  let intervals :=
    match releaseIntervals !! dependency with
    | Some v => Days (JS.or_num v (-1))
    | None => if JS.inherited dependency then Inherited dependency
              else Days (-1)
    end in
  let types := [] in
  let types := push_if (JS.includes devDependencies dependency)
                       DEVELOPMENT_ONLY types in
  let types := push_if (JS.includes withinProjectDependencies dependency)
                       WITHIN_PROJECT types in
  let types := push_if (JS.includes laggingDependencies dependency)
                       LAGGING types in
  let types := push_if (JS.includes vulnerabilities dependency)
                       VULNERABLE types in
  {| dependencyTypes := types;
     highestCvssScore :=
       getHighestCvssScoreForDependency dependency vulnerabilitiesData;
     intervals := intervals |}.

(** ** Path simplifier *)

(** The body of the [for] loop of [simplifyPath], threading
    [simplifiedPath] and [withinProjectBuffer]. *)
Fixpoint simplify_loop (withinProjectDependencies : list string)
    (path simplifiedPath withinProjectBuffer : list string) : list string :=
  match path with
  | [] => simplifiedPath
  | node :: path' =>
      if JS.includes withinProjectDependencies node then
        simplify_loop withinProjectDependencies path' simplifiedPath
                      (withinProjectBuffer ++ [node])
      else
        match last withinProjectBuffer with
        | Some b =>
            simplify_loop withinProjectDependencies path'
                          (simplifiedPath ++ [b] ++ [node]) []
        | None =>
            simplify_loop withinProjectDependencies path'
                          (simplifiedPath ++ [node]) withinProjectBuffer
        end
  end.

Definition simplifyPath (path withinProjectDependencies : list string)
    : list string :=
  simplify_loop withinProjectDependencies path [] [].

(** ** Dependency tree view *)

(** The [for] loop of [findChildren], from the node reached so far. *)
Fixpoint findChildren_from (node : tree) (currentPath : list string)
    : list string :=
  match currentPath with
  | [] => JS.keys (deps_or_empty node)
  | dep :: currentPath' =>
      match dependencies node with
      | Some d =>
          match JS.get d dep with
          | Some child => findChildren_from child currentPath'
          | None => []
          end
      | None => []
      end
  end.

Definition findChildren (dependencyTree : tree) (currentPath : list string)
    : list string :=
  findChildren_from dependencyTree currentPath.

(** The [while] loop of [initializeQueueWithNestedDeps].  The head of
    [stack] is the top of the JavaScript stack; for an own key [dep] of
    [node.dependencies], [node.dependencies[dep]] is the value listed
    with it. *)
Fixpoint initializeQueue_loop (fuel : nat)
    (stack : list (tree * list string)) (queue : list (list string))
    : option (list (list string)) :=
  match stack with
  | [] => Some queue
  | (node, path) :: stack' =>
      match fuel with
      | O => None
      | S fuel' =>
          let entries := deps_or_empty node in
          initializeQueue_loop fuel'
            (rev (map (λ e, (e.2, path ++ [e.1])) entries) ++ stack')
            (queue ++ map (λ e, path ++ [e.1]) entries)
      end
  end.

Definition initializeQueueWithNestedDeps (fuel : nat) (dependencyTree : tree)
    : option (list (list string)) :=
  initializeQueue_loop fuel [(dependencyTree, [])] [].

(** ** Traversal engine *)

(** The object [report.dependencies]: its own properties, and the
    record that an assignment to [__proto__] has made its prototype
    ([None] while the prototype is [Object.prototype]). *)
Record dependencies_object : Type :=
  { own_records : gmap string DependencyRecord;
    prototype_record : option DependencyRecord }.

(** [o !! k] is the own property [k] of [o]. *)
Global Instance dependencies_object_lookup :
  Lookup string DependencyRecord dependencies_object :=
  λ k o, own_records o !! k.

Global Instance dependencies_object_empty : Empty dependencies_object :=
  {| own_records := ∅; prototype_record := None |}.

(** [o[k] = r] for a record [r]: the setter of [__proto__] makes [r]
    the prototype and adds no property. *)
Definition assign_record (o : dependencies_object) (k : string)
    (r : DependencyRecord) : dependencies_object :=
  if String.eqb k "__proto__" then
    {| own_records := own_records o; prototype_record := Some r |}
  else
    {| own_records := <[k := r]> (own_records o);
       prototype_record := prototype_record o |}.

(** A value of [vulnerabilityExposure]: a count, or the string that
    [+ 1] makes of an inherited function or object. *)
Inductive exposure : Type :=
  | Count (n : nat)
  | Text (s : string).

(** [(vulnerabilityExposure[k] || 0) + 1], where [own] is the own
    property [k].  A number [c] gives [c + 1] ([0 || 0] is [0]); a
    non-empty string gets ["1"] appended; without an own property an
    inherited [k] yields a function or object, which is truthy and is
    turned into a string by [+]. *)
Definition exposure_plus_one (own : option exposure) (k : string) : exposure :=
  match own with
  | Some (Count c) => Count (c + 1)
  | Some (Text t) =>
      if String.eqb t "" then Count 1 else Text (t +:+ "1")
  | None =>
      if JS.inherited k then Text (JS.inherited_text k +:+ "1") else Count 1
  end.

(** [vulnerabilityExposure[k] = v] for a number or string [v]: the
    setter of [__proto__] ignores a value that is not an object. *)
Definition assign_exposure (m : gmap string exposure) (k : string)
    (v : exposure) : gmap string exposure :=
  if String.eqb k "__proto__" then m else <[k := v]> m.

(** The mutable variables of [step6_constructPath]. *)
Record state : Type :=
  { queue : list (list string);
    report_paths : list (list string);
    report_dependencies : dependencies_object;
    vulnerabilityExposure : gmap string exposure;
    foundVulnerableDeps : gset string }.

Section Traversal.

Context (dependencyTree : tree).
Context (devDependencies withinProjectDependencies laggingDependencies
           vulnerabilities : list string).
Context (vulnerabilitiesData : list finding).
Context (releaseIntervals : gmap string Q).

Definition classify (currentNode : string) : DependencyRecord :=
  classifyDependency currentNode devDependencies withinProjectDependencies
    laggingDependencies vulnerabilities vulnerabilitiesData releaseIntervals.

(** The paths pushed by [children.forEach]. *)
Definition expand (found : gset string) (currentPath : list string)
    : list (list string) :=
  map (λ child, currentPath ++ [child])
      (filter (λ child, child ∉ found)
              (findChildren dependencyTree currentPath)).

(** One iteration of the main [while] loop, after [queue.shift()] has
    returned [currentPath] and left [rest]. *)
Definition iteration (currentPath : list string) (rest : list (list string))
    (s : state) : state :=
  match last currentPath with
  | None => {| queue := rest;
               report_paths := report_paths s;
               report_dependencies := report_dependencies s;
               vulnerabilityExposure := vulnerabilityExposure s;
               foundVulnerableDeps := foundVulnerableDeps s |}
  | Some currentNode =>
      if String.eqb currentNode "" then
        {| queue := rest;
           report_paths := report_paths s;
           report_dependencies := report_dependencies s;
           vulnerabilityExposure := vulnerabilityExposure s;
           foundVulnerableDeps := foundVulnerableDeps s |}
      else
        let r := classify currentNode in
        let dependencies' :=
          assign_record (report_dependencies s) currentNode r in
        if bool_decide (VULNERABLE ∈ dependencyTypes r) then
          {| queue := rest;
             report_paths :=
               report_paths s
                 ++ [simplifyPath currentPath withinProjectDependencies];
             report_dependencies := dependencies';
             vulnerabilityExposure :=
               assign_exposure (vulnerabilityExposure s) currentNode
                 (exposure_plus_one (vulnerabilityExposure s !! currentNode)
                                    currentNode);
             foundVulnerableDeps := {[currentNode]} ∪ foundVulnerableDeps s |}
        else if bool_decide (DEVELOPMENT_ONLY ∉ dependencyTypes r) then
          {| queue := rest ++ expand (foundVulnerableDeps s) currentPath;
             report_paths := report_paths s;
             report_dependencies := dependencies';
             vulnerabilityExposure := vulnerabilityExposure s;
             foundVulnerableDeps := foundVulnerableDeps s |}
        else
          {| queue := rest;
             report_paths := report_paths s;
             report_dependencies := dependencies';
             vulnerabilityExposure := vulnerabilityExposure s;
             foundVulnerableDeps := foundVulnerableDeps s |}
  end.

(** [while (queue.length > 0) { ... }] *)
Fixpoint traverse (fuel : nat) (s : state) : option state :=
  match queue s with
  | [] => Some s
  | currentPath :: rest =>
      match fuel with
      | O => None
      | S fuel' => traverse fuel' (iteration currentPath rest s)
      end
  end.

End Traversal.

(** ** Report assembly *)

(** The documents read by [step6_constructPath]. *)
Record lag_document : Type :=
  { laggingDependencies : list (string * string);
    releaseInterval : gmap string Q }.

(** [step1_output] is the dependency tree, [step2_output] the
    [devDependencies] object of [package.json] (name to version range),
    [step3_output] the array of within-project names written by step 3,
    [step4_output] the lag document and [step5_output] the findings. *)
Record documents : Type :=
  { step1_output : tree;
    step2_output : list (string * string);
    step3_output : list string;
    step4_output : lag_document;
    step5_output : list finding }.

(** The [report] object that step 6 hands to [JSON.stringify]. *)
Record report : Type :=
  { paths : list (list string);
    dependencies_of : dependencies_object;
    exposure_of : gmap string exposure }.

(** [vuln.fileName.split(':')[0].replace('.min', '').replace('.js', '')] *)
Definition vulnerable_name (v : finding) : string :=
  JS.replace (JS.replace (JS.split_head (fileName v) ":") ".min" "") ".js" "".

(** The record, if any, that [report.dependencies[node]] yields: the
    own property, or for [__proto__] the prototype when a record has
    become the prototype.  Every other value reached through the
    prototype chain (a field of the prototype record, a function of
    [Object.prototype]) has no [highestCvssScore]. *)
Definition read_record (deps : dependencies_object) (node : string)
    : option DependencyRecord :=
  match deps !! node with
  | Some r => Some r
  | None => if String.eqb node "__proto__" then prototype_record deps
            else None
  end.

(** [a.map(node => report.dependencies[node]?.highestCvssScore || 0)
      .reduce((max, score) => Math.max(max, score), 0)] *)
Definition pathScore (deps : dependencies_object)
    (a : list string) : Q :=
  fold_left (λ max score, JS.max2 max score)
    (map (λ node, match read_record deps node with
                  | Some r => JS.or_num (highestCvssScore r) 0
                  | None => 0%Q
                  end) a)
    0%Q.

(** The comparator given to [report.paths.sort]. *)
Definition comparePaths (deps : dependencies_object)
    (a b : list string) : Q :=
  (pathScore deps b - pathScore deps a)%Q.

Definition initial_state (q : list (list string)) : state :=
  {| queue := q; report_paths := []; report_dependencies := ∅;
     vulnerabilityExposure := ∅; foundVulnerableDeps := ∅ |}.

(** The state of the engine when the main loop has emptied the queue.
    The five lists are computed as in the source: [Object.keys] of the
    step 2 object, [Object.keys] of the step 3 array (hence its
    indices), [Object.keys] of [laggingDependencies], the stripped file
    names of the findings, and the findings themselves. *)
Definition run_traversal (fuel : nat) (d : documents) : option state :=
  q ← initializeQueueWithNestedDeps fuel (step1_output d);
  traverse (step1_output d)
    (JS.keys (step2_output d))
    (JS.array_keys (step3_output d))
    (JS.keys (laggingDependencies (step4_output d)))
    (map vulnerable_name (step5_output d))
    (step5_output d)
    (releaseInterval (step4_output d))
    fuel (initial_state q).

(** The report handed to [JSON.stringify]. *)
Definition step6_constructPath (fuel : nat) (d : documents) : option report :=
  s ← run_traversal fuel d;
  Some {| paths := JS.sort (comparePaths (report_dependencies s))
                           (report_paths s);
          dependencies_of := report_dependencies s;
          exposure_of := vulnerabilityExposure s |}.

(** ** Observations and measures used by the statements *)

Section Observation.

Context (dependencyTree : tree).
Context (devDependencies withinProjectDependencies laggingDependencies
           vulnerabilities : list string).
Context (vulnerabilitiesData : list finding).
Context (releaseIntervals : gmap string Q).

(** The paths returned by [queue.shift()], in order: a ghost trace of
    [traverse]. *)
Fixpoint visits (fuel : nat) (s : state) : option (list (list string)) :=
  match queue s with
  | [] => Some []
  | currentPath :: rest =>
      match fuel with
      | O => None
      | S fuel' =>
          cons currentPath <$>
            visits fuel'
              (iteration dependencyTree devDependencies
                 withinProjectDependencies laggingDependencies
                 vulnerabilities vulnerabilitiesData releaseIntervals
                 currentPath rest s)
      end
  end.

End Observation.

(** The trace of the main loop on the documents of a run. *)
Definition run_visits (fuel : nat) (d : documents)
    : option (list (list string)) :=
  q ← initializeQueueWithNestedDeps fuel (step1_output d);
  visits (step1_output d)
    (JS.keys (step2_output d))
    (JS.array_keys (step3_output d))
    (JS.keys (laggingDependencies (step4_output d)))
    (map vulnerable_name (step5_output d))
    (step5_output d)
    (releaseInterval (step4_output d))
    fuel (initial_state q).

(** Number of nodes of a tree: the fuel of the seeding walk. *)
Fixpoint tsize (t : tree) : nat :=
  match t with
  | Node None => 1
  | Node (Some l) => S (list_sum (map (λ e, tsize e.2) l))
  end.

Definition stack_size (stack : list (tree * list string)) : nat :=
  list_sum (map (λ e, tsize e.1) stack).

(** A weight that dominates the work a queued path can still cause:
    one for the path itself plus, for each key, the largest weight of a
    child. *)
Fixpoint wsize (t : tree) : nat :=
  match t with
  | Node None => 1
  | Node (Some l) => S (length l * list_max (map (λ e, wsize e.2) l))
  end.

Fixpoint weight_from (node : tree) (p : list string) : nat :=
  match p with
  | [] => wsize node
  | dep :: p' =>
      match dependencies node with
      | Some d =>
          match JS.get d dep with
          | Some child => weight_from child p'
          | None => 1
          end
      | None => 1
      end
  end.

Definition qweight (t : tree) (q : list (list string)) : nat :=
  list_sum (map (weight_from t) q).

(** [resolves t p n]: following the names of [p] from [t] through
    [dependencies] reaches the node [n]. *)
Inductive resolves : tree → list string → tree → Prop :=
  | resolves_nil t : resolves t [] t
  | resolves_cons t d dep child p n :
      dependencies t = Some d →
      JS.get d dep = Some child →
      resolves child p n →
      resolves t (dep :: p) n.

(** *** The claims' readings, for comparison with the code *)

(** The score as the specification words it: the findings are matched
    on the subject name with [.min] and [.js] stripped. *)
Definition claimed_highestCvssScore
    (dependency : string) (vulnerabilitiesData : list finding) : Q :=
  JS.Math_max (-1)
    (flat_map (λ entry, map (λ v, JS.toNumber (cvss v)) (vulnerabilities entry))
       (filter (λ entry, JS.startsWith (vulnerable_name entry) dependency = true)
               vulnerabilitiesData)).

(** The maximum [highestCvssScore] among the records of a path's names;
    [None] when no name of the path has a record. *)
Definition claimed_pathMax (deps : dependencies_object)
    (a : list string) : option Q :=
  match omap (λ node, highestCvssScore <$> deps !! node) a with
  | [] => None
  | x :: l => Some (JS.Math_max x l)
  end.

(** Every earlier path has a maximum at least that of every later one. *)
Fixpoint claimed_descending (deps : dependencies_object)
    (out : list (list string)) : bool :=
  match out with
  | [] => true
  | a :: out' =>
      forallb (λ b, match claimed_pathMax deps a, claimed_pathMax deps b with
                    | Some ma, Some mb => Qle_bool mb ma
                    | _, _ => true
                    end) out'
      && claimed_descending deps out'
  end.

Definition has_type (deps : dependencies_object)
    (ty : DependencyType) (n : string) : bool :=
  match deps !! n with
  | Some r => bool_decide (ty ∈ dependencyTypes r)
  | None => false
  end.

(** No name of [p] that follows a development-only, non-vulnerable name
    is itself neither development-only nor vulnerable. *)
Fixpoint claimed_pruned_path (deps : dependencies_object)
    (p : list string) : bool :=
  match p with
  | [] => true
  | n :: p' =>
      (if has_type deps DEVELOPMENT_ONLY n && negb (has_type deps VULNERABLE n)
       then forallb (λ m, has_type deps DEVELOPMENT_ONLY m
                          || has_type deps VULNERABLE m) p'
       else true)
      && claimed_pruned_path deps p'
  end.

Definition claimed_pruned (r : report) : bool :=
  forallb (claimed_pruned_path (dependencies_of r)) (paths r).

(** *** Concrete documents used in the examples *)

Definition leaf : tree := Node None.

Definition object (l : list (string * tree)) : tree := Node (Some l).

Definition one_finding (f : string) (score : option Q) : finding :=
  {| fileName := f; filePath := "";
     vulnerabilities :=
       [ {| source := "NVD"; name := "CVE"; severity := "HIGH";
            cvss := score |} ] |}.

Definition documents_of (t : tree) (dev : list string)
    (fs : list finding) : documents :=
  {| step1_output := t;
     step2_output := map (λ n, (n, "^1.0.0")) dev;
     step3_output := [];
     step4_output := {| laggingDependencies := []; releaseInterval := ∅ |};
     step5_output := fs |}.

Definition example_tree : tree :=
  object [("express", object [("qs", leaf); ("minimist", leaf)]);
          ("mocha", object [("lodash", object [("minimist", leaf)])])].

Definition example_documents : documents :=
  documents_of example_tree ["mocha"]
    [one_finding "lodash.js:4.17.0" (Some (75 # 10)%Q);
     one_finding "minimist:0.0.8" (Some (98 # 10)%Q)].

(** ** The other steps of the pipeline *)

(** *** Step 5: the scanner report *)

(** The parts of the OWASP Dependency-Check report read by
    [parseVulnerableDependencies].  [cvssv2] is the [score] of the
    [cvssv2] object and [cvssv3] the [baseScore] of the [cvssv3] object,
    [None] when the object is absent. *)
Module Owasp.

Record vulnerability : Type :=
  { source : string; name : string; severity : string;
    cvssv2 : option Q; cvssv3 : option Q }.

Record dependency : Type :=
  { fileName : string; filePath : string;
    vulnerabilities : option (list vulnerability) }.

End Owasp.

(** [vuln.cvssv2 ? vuln.cvssv2.score
                 : (vuln.cvssv3 ? vuln.cvssv3.baseScore : null)] *)
Definition CVSS_Score (v : Owasp.vulnerability) : option Q :=
  match Owasp.cvssv2 v with
  | Some score => Some score
  | None => match Owasp.cvssv3 v with
            | Some baseScore => Some baseScore
            | None => None
            end
  end.

Definition parse_vulnerability (v : Owasp.vulnerability) : vuln :=
  {| source := Owasp.source v; name := Owasp.name v;
     severity := Owasp.severity v; cvss := CVSS_Score v |}.

(** [dep.vulnerabilities && dep.vulnerabilities.length > 0] *)
Definition has_vulnerabilities (dep : Owasp.dependency) : bool :=
  match Owasp.vulnerabilities dep with
  | Some vs => 0 <? length vs
  | None => false
  end.

(** The argument is [report.dependencies]. *)
Definition parseVulnerableDependencies (scanned : list Owasp.dependency)
    : list finding :=
  map (λ dep, {| fileName := Owasp.fileName dep;
                 filePath := Owasp.filePath dep;
                 vulnerabilities :=
                   map parse_vulnerability
                       (default [] (Owasp.vulnerabilities dep)) |})
      (filter (λ dep, has_vulnerabilities dep = true) scanned).

(** *** Steps 2 and 3: [package.json] *)

Record package_json : Type :=
  { pj_dependencies : option (list (string * string));
    pj_devDependencies : option (list (string * string)) }.

(** The object that step 2 hands to [fs.writeFile]:
    [packageJson.devDependencies || {}].  [packageJson] is [None] when
    [package.json] cannot be read: the promise is then rejected and
    nothing is written. *)
Definition step2_devDeps (packageJson : option package_json)
    : option (list (string * string)) :=
  match packageJson with
  | Some pj => Some (default [] (pj_devDependencies pj))
  | None => None
  end.

(** One of the two [for] loops of step 3: the names of the entries
    whose version starts with [file:]. *)
Definition file_entries (o : option (list (string * string))) : list string :=
  map fst (filter (λ e, JS.startsWith e.2 "file:" = true) (default [] o)).

(** The array that step 3 hands to [fs.writeFile].  [packageJson] is
    [None] when [package.json] cannot be read and [node_modules] is
    [None] when the directory cannot be listed: in both cases the
    promise is rejected and nothing is written.  The listing itself is
    read and not used. *)
Definition step3_withinProjectDeps (packageJson : option package_json)
    (node_modules : option (list string)) : option (list string) :=
  match packageJson with
  | None => None
  | Some pj =>
      match node_modules with
      | None => None
      | Some files =>
          Some (file_entries (pj_dependencies pj)
                ++ file_entries (pj_devDependencies pj))
      end
  end.

(** *** Step 4: the lag document *)

(** [o[k] = v] on an object given in key order: an existing key keeps
    its place, a new key goes last. *)
Fixpoint obj_set {A} (o : list (string * A)) (k : string) (v : A)
    : list (string * A) :=
  match o with
  | [] => [(k, v)]
  | (k', v') :: o' => if String.eqb k k' then (k', v) :: o'
                      else (k', v') :: obj_set o' k v
  end.

(** [o[k] = v] for a string or number [v] on an object created by
    [{}]: the setter of [__proto__] ignores a value that is not an
    object, so nothing is stored under that name. *)
Definition obj_assign {A} (o : list (string * A)) (k : string) (v : A)
    : list (string * A) :=
  if String.eqb k "__proto__" then o else obj_set o k v.

Definition map_assign {A} (m : gmap string A) (k : string) (v : A)
    : gmap string A :=
  if String.eqb k "__proto__" then m else <[k := v]> m.

Section Step4.

(** The registry and the clock are outside the engine:
    [fetchPackageVersions] stands for the answer of the registry
    ([None] for [null]) and [calculateIfADependencyIsLagging] for the
    result of the smoothing on that answer; [version] reads the
    [version] field of a node. *)
Context {versions : Type}.
Context (version : tree → string).
Context (fetchPackageVersions : string → option versions).
Context (calculateIfADependencyIsLagging :
           versions → string → string → bool * Q).

(** The body of the [for] loop of [step4_lagDeps]. *)
Definition step4_round (acc : lag_document) (e : string * tree)
    : lag_document :=
  match fetchPackageVersions e.1 with
  | Some vs =>
      let r := calculateIfADependencyIsLagging vs (version e.2) e.1 in
      {| laggingDependencies :=
           if r.1 then obj_assign (laggingDependencies acc) e.1 (version e.2)
           else laggingDependencies acc;
         releaseInterval := map_assign (releaseInterval acc) e.1 r.2 |}
  | None => acc
  end.

(** [Object.entries(dependencyTree.dependencies)] throws when the field
    is absent; the error is caught and the promise rejected: [None]. *)
Definition step4_lagDeps (dependencyTree : tree) : option lag_document :=
  match dependencies dependencyTree with
  | None => None
  | Some entries =>
      Some (fold_left step4_round entries
              {| laggingDependencies := []; releaseInterval := ∅ |})
  end.

End Step4.

(** *** Library download *)

Definition versionsToDownload : nat := 10.

(** [l.slice(-n)] for a positive [n] *)
Definition slice_last {A} (n : nat) (l : list A) : list A :=
  drop (length l - n) l.

(** The versions for which [downloadSpecificVersions] runs [npm pack]:
    those of the last [versionsToDownload] whose directory [v<version>]
    is not among the directories read before the loop. *)
Definition downloadSpecificVersions (versions alreadyDownloaded : list string)
    : list string :=
  filter (λ version, JS.includes alreadyDownloaded ("v" +:+ version) = false)
         (slice_last versionsToDownload versions).

(** ** Structural views of the tree *)

(** The seed queue, by recursion on the tree: the paths to the children
    of a node, then the walks of the children, last child first. *)
Fixpoint walk (node : tree) (path : list string) : list (list string) :=
  match node with
  | Node None => []
  | Node (Some l) =>
      map (λ e, path ++ [e.1]) l
      ++ concat (rev (map (λ e, walk e.2 (path ++ [e.1])) l))
  end.

(** The names that occur as a key at any depth. *)
Fixpoint tree_names (t : tree) : list string :=
  match t with
  | Node None => []
  | Node (Some l) => map fst l ++ concat (map (λ e, tree_names e.2) l)
  end.

(** The keys of every object of the tree are distinct, as in any
    JavaScript object. *)
Fixpoint tree_wf (t : tree) : bool :=
  match t with
  | Node None => true
  | Node (Some l) =>
      bool_decide (NoDup (map fst l)) && forallb (λ e, tree_wf e.2) l
  end.

(** ** Auxiliary notions for the statements *)

(** [simplifyPath] with the buffer reduced to its last element. *)
Fixpoint simplify_from (withinProjectDependencies : list string)
    (path : list string) (b : option string) : list string :=
  match path with
  | [] => []
  | node :: path' =>
      if JS.includes withinProjectDependencies node then
        simplify_from withinProjectDependencies path' (Some node)
      else
        match b with
        | Some y => y :: node :: simplify_from withinProjectDependencies path' None
        | None => node :: simplify_from withinProjectDependencies path' None
        end
  end.

Definition is_digit (c : ascii) : bool :=
  (48 <=? nat_of_ascii c) && (nat_of_ascii c <=? 57).

Fixpoint all_digits (s : string) : bool :=
  match s with
  | EmptyString => true
  | String c s' => is_digit c && all_digits s'
  end.

(** [pat] occurs somewhere in [s]. *)
Fixpoint occurs (pat s : string) : bool :=
  String.prefix pat s
  || match s with
     | EmptyString => false
     | String _ s' => occurs pat s'
     end.

(** The sum of the exposure values that are counts. *)
Definition count_of (e : exposure) : nat :=
  match e with Count c => c | Text _ => 0 end.

Definition total_exposure (m : gmap string exposure) : nat :=
  map_fold (λ _ v acc, count_of v + acc) 0 m.

(** [report.dependencies] holds the record of [k]: as the prototype
    for [__proto__], as an own property otherwise. *)
Definition recorded (o : dependencies_object) (k : string) : Prop :=
  if String.eqb k "__proto__" then is_Some (prototype_record o)
  else is_Some (o !! k).

(** A run in which the within-project array has one entry and the tree
    has a package whose name is the index of that entry. *)
Definition index_documents : documents :=
  {| step1_output := object [("0", leaf); ("core", leaf)];
     step2_output := [];
     step3_output := ["core"];
     step4_output := {| laggingDependencies := []; releaseInterval := ∅ |};
     step5_output := [] |}.

(** The lag document of [example_tree] when the registry answers for
    every package and every package is found lagging with an interval
    of 30 days, and the documents of the run that uses it. *)
Definition example_lag : lag_document :=
  {| laggingDependencies := [("express", "4.0.0"); ("mocha", "4.0.0")];
     releaseInterval := <["mocha" := 30%Q]> (<["express" := 30%Q]> ∅) |}.

Definition lag_documents : documents :=
  {| step1_output := example_tree;
     step2_output := [];
     step3_output := [];
     step4_output := example_lag;
     step5_output := [] |}.

(** The classification of a name with the lists that
    [step6_constructPath] derives from the documents. *)
Definition classify_in (d : documents) (n : string) : DependencyRecord :=
  classify (JS.keys (step2_output d)) (JS.array_keys (step3_output d))
    (JS.keys (laggingDependencies (step4_output d)))
    (map vulnerable_name (step5_output d)) (step5_output d)
    (releaseInterval (step4_output d)) n.

(** ** Invariants of the main loop *)

Section InvariantStatements.

Context (dependencyTree : tree).
Context (devDependencies withinProjectDependencies laggingDependencies
           vulnerabilities : list string).
Context (vulnerabilitiesData : list finding).
Context (releaseIntervals : gmap string Q).

Local Abbreviation classify' :=
  (classify devDependencies withinProjectDependencies laggingDependencies
     vulnerabilities vulnerabilitiesData releaseIntervals).

(** Every record is the classification of its name; the empty name
    and [__proto__] have no own record, and the prototype, once set, is
    the classification of [__proto__]. *)
Definition records_classified (s : state) : Prop :=
  (∀ n r, report_dependencies s !! n = Some r →
     r = classify' n ∧ n ≠ "" ∧ n ≠ "__proto__")
  ∧ (∀ r, prototype_record (report_dependencies s) = Some r →
       r = classify' "__proto__").

(** The exposure object has a value for the found names other than
    [__proto__]; every such name is classified vulnerable and recorded;
    its value is a positive count, or a non-empty string when the name
    is inherited from [Object.prototype]; and when no inherited name is
    classified vulnerable there are as many reported paths as counted
    discoveries. *)
Definition exposure_consistent (s : state) : Prop :=
  (∀ n, n ∈ dom (vulnerabilityExposure s)
        ↔ n ∈ foundVulnerableDeps s ∧ n ≠ "__proto__")
  ∧ (∀ n e, vulnerabilityExposure s !! n = Some e →
       VULNERABLE ∈ dependencyTypes (classify' n)
       ∧ report_dependencies s !! n = Some (classify' n)
       ∧ if JS.inherited n then ∃ t, e = Text t ∧ t ≠ ""
         else ∃ c, e = Count c ∧ 1 ≤ c)
  ∧ ((∀ n, JS.inherited n = true →
           VULNERABLE ∉ dependencyTypes (classify' n)) →
     length (report_paths s) = total_exposure (vulnerabilityExposure s)).

(** Every name of the tree is recorded or ends a queued path, and
    nothing else is. *)
Definition names_covered (s : state) : Prop :=
  (∀ k, In k (tree_names dependencyTree) → k ≠ "" →
        recorded (report_dependencies s) k
        ∨ ∃ p, p ∈ queue s ∧ last p = Some k)
  ∧ (∀ k, recorded (report_dependencies s) k →
          In k (tree_names dependencyTree))
  ∧ (∀ p k, p ∈ queue s → last p = Some k →
            In k (tree_names dependencyTree)).

(** Every queued path resolves to a node, and every reported path is
    the simplification of a resolving path that ends in a name
    classified vulnerable. *)
Definition paths_from_tree (s : state) : Prop :=
  (∀ p, p ∈ queue s → ∃ n, resolves dependencyTree p n)
  ∧ (∀ q, q ∈ report_paths s →
       ∃ p k n, q = simplifyPath p withinProjectDependencies
                ∧ last p = Some k
                ∧ VULNERABLE ∈ dependencyTypes (classify' k)
                ∧ resolves dependencyTree p n).

End InvariantStatements.

(** * Properties *)

(** ** JavaScript primitives *)

Lemma includes_elem_of (l : list string) (x : string) :
  JS.includes l x = true ↔ x ∈ l.
Proof.
  unfold JS.includes. rewrite existsb_exists. split.
  - intros (y & Hy & Heq). apply String.eqb_eq in Heq. subst y.
    by apply list_elem_of_In.
  - intros Hx. exists x. split; [by apply list_elem_of_In|].
    apply String.eqb_refl.
Qed.

Lemma max2_cases (a b : Q) :
  (JS.max2 a b = b ∧ (a <= b)%Q) ∨ (JS.max2 a b = a ∧ (b < a)%Q).
Proof.
  unfold JS.max2. destruct (Qle_bool a b) eqn:E.
  - left. split; [done|]. by apply Qle_bool_iff.
  - right. split; [done|]. apply Qnot_le_lt. intros H.
    apply Qle_bool_iff in H. congruence.
Qed.

Lemma Math_max_lower (rest : list Q) (x : Q) : (x <= JS.Math_max x rest)%Q.
Proof.
  unfold JS.Math_max. revert x.
  induction rest as [|y rest IH]; intros x; simpl; [lra|].
  specialize (IH (JS.max2 x y)).
  destruct (max2_cases x y) as [[E H]|[E H]]; rewrite E in IH |- *; lra.
Qed.

Lemma Math_max_upper (rest : list Q) (x y : Q) :
  y ∈ rest → (y <= JS.Math_max x rest)%Q.
Proof.
  unfold JS.Math_max. revert x.
  induction rest as [|z rest IH]; intros x Hy; simpl.
  - by apply elem_of_nil in Hy.
  - apply elem_of_cons in Hy as [->|Hy]; [|by apply IH].
    pose proof (Math_max_lower rest (JS.max2 x z)) as Hl.
    unfold JS.Math_max in Hl.
    destruct (max2_cases x z) as [[E H]|[E H]]; rewrite E in Hl |- *; lra.
Qed.

Lemma Math_max_attained (rest : list Q) (x : Q) :
  JS.Math_max x rest = x ∨ JS.Math_max x rest ∈ rest.
Proof.
  unfold JS.Math_max. revert x.
  induction rest as [|z rest IH]; intros x; simpl; [by left|].
  destruct (IH (JS.max2 x z)) as [E|Hin].
  - rewrite E. destruct (max2_cases x z) as [[E' _]|[E' _]]; rewrite E'.
    + right. apply elem_of_cons. by left.
    + by left.
  - right. apply elem_of_cons. by right.
Qed.

(** ** Path simplifier *)

Lemma simplify_loop_run (wp run acc buf : list string) :
  Forall (λ x, JS.includes wp x = true) run →
  simplify_loop wp run acc buf = acc.
Proof.
  intros H. revert acc buf.
  induction H as [|x run Hx _ IH]; intros acc buf; simpl; [done|].
  by rewrite Hx.
Qed.

Lemma simplify_loop_app_run (wp p run acc buf : list string) :
  Forall (λ x, JS.includes wp x = true) run →
  simplify_loop wp (p ++ run) acc buf = simplify_loop wp p acc buf.
Proof.
  intros H. revert acc buf.
  induction p as [|x p IH]; intros acc buf; simpl.
  - destruct run; [done|]. by apply simplify_loop_run.
  - destruct (JS.includes wp x); [by apply IH|].
    destruct (last buf); by apply IH.
Qed.

(** A run of within-project names that ends the path leaves no trace in
    the result: the buffer is never flushed after the loop. *)
Lemma simplifyPath_trailing_run_dropped (wp p run : list string) :
  Forall (λ x, JS.includes wp x = true) run →
  simplifyPath (p ++ run) wp = simplifyPath p wp.
Proof. apply simplify_loop_app_run. Qed.

Lemma simplify_loop_outside (wp p acc buf : list string) :
  Forall (λ x, JS.includes wp x = true) buf →
  filter (λ x, JS.includes wp x = false) (simplify_loop wp p acc buf)
  = filter (λ x, JS.includes wp x = false) acc
    ++ filter (λ x, JS.includes wp x = false) p.
Proof.
  revert acc buf. induction p as [|x p IH]; intros acc buf Hbuf; simpl.
  - by rewrite app_nil_r.
  - destruct (JS.includes wp x) eqn:Hx.
    + rewrite IH.
      * rewrite filter_cons_False; [done|]. by rewrite Hx.
      * apply Forall_app. split; [done|]. by constructor.
    + rewrite filter_cons_True by done.
      destruct (last buf) as [b|] eqn:Hlast.
      * rewrite IH by constructor.
        assert (JS.includes wp b = true) as Hb.
        { apply last_Some in Hlast as [buf' ->].
          apply Forall_app in Hbuf as [_ Hb]. by inversion Hb. }
        rewrite !filter_app. rewrite (filter_cons_False _ b); [|by rewrite Hb].
        rewrite (filter_cons_True _ x) by done.
        rewrite filter_nil. by rewrite <- app_assoc.
      * rewrite IH by done. rewrite filter_app, filter_cons_True by done.
        rewrite filter_nil. by rewrite <- app_assoc.
Qed.

(** The names outside the within-project set are kept, in order. *)
Lemma simplifyPath_outside_preserved (p wp : list string) :
  filter (λ x, JS.includes wp x = false) (simplifyPath p wp)
  = filter (λ x, JS.includes wp x = false) p.
Proof.
  unfold simplifyPath. rewrite simplify_loop_outside by constructor.
  by rewrite filter_nil.
Qed.

(** C1. [simplifyPath] flushes the buffered within-project run only when
    a name outside the set follows it; on the path [X, A] with [A]
    within-project the run [A] that ends the path is lost instead of
    collapsing to its last element. *)
Theorem simplifyPath_loses_final_run :
  simplifyPath ["X"; "A"] ["A"] = ["X"]
  ∧ simplifyPath ["A"; "B"] ["A"; "B"] = [].
Proof. split; reflexivity. Qed.

(** ** Classifier *)

(** C5. [releaseIntervals[dependency] || -1] yields [-1] for a stored
    interval of [0]: the key [a] is present with value [0] and the
    record's [intervals] is [-1]. *)
Theorem classifyDependency_zero_interval :
  intervals (classifyDependency "a" [] [] [] [] [] {[ "a" := 0%Q ]})
  = (-1)%Q.
Proof. reflexivity. Qed.

Lemma classifyDependency_intervals dependency dev wp lag vs fs
    (releaseIntervals : gmap string Q) :
  intervals (classifyDependency dependency dev wp lag vs fs releaseIntervals)
  = match releaseIntervals !! dependency with
    | Some v => Days (if Qeq_bool v 0 then (-1)%Q else v)
    | None => if JS.inherited dependency then Inherited dependency
              else Days (-1)
    end.
Proof.
  unfold classifyDependency, JS.or_num. simpl.
  by destruct (releaseIntervals !! dependency).
Qed.

Lemma elem_of_scores (P : finding → Prop) `{∀ f, Decision (P f)}
    (fs : list finding) (y : Q) :
  y ∈ flat_map (λ entry, map (λ v, JS.toNumber (cvss v)) (vulnerabilities entry))
        (filter P fs)
  ↔ ∃ f v, f ∈ fs ∧ P f ∧ v ∈ vulnerabilities f ∧ y = JS.toNumber (cvss v).
Proof.
  rewrite list_elem_of_In, in_flat_map. split.
  - intros (f & Hf & Hy). apply in_map_iff in Hy as (v & <- & Hv).
    apply list_elem_of_In, list_elem_of_filter in Hf as [HP Hf].
    apply list_elem_of_In in Hv. by exists f, v.
  - intros (f & v & Hf & HP & Hv & ->). exists f. split.
    + apply list_elem_of_In, list_elem_of_filter. done.
    + apply in_map_iff. exists v. by apply list_elem_of_In in Hv.
Qed.

(** The score bounds the scores of the findings whose unstripped
    [fileName] starts with the name, and is [-1] or one of them. *)
Lemma getHighestCvssScore_bounds (dependency : string) (fs : list finding) :
  let score := getHighestCvssScoreForDependency dependency fs in
  (-1 <= score)%Q
  ∧ (∀ f v, f ∈ fs → JS.startsWith (fileName f) dependency = true →
            v ∈ vulnerabilities f → (JS.toNumber (cvss v) <= score)%Q)
  ∧ (score = (-1)%Q
     ∨ ∃ f v, f ∈ fs ∧ JS.startsWith (fileName f) dependency = true
              ∧ v ∈ vulnerabilities f ∧ score = JS.toNumber (cvss v)).
Proof.
  intros score. unfold getHighestCvssScoreForDependency in score.
  split; [apply Math_max_lower|]. split.
  - intros f v Hf HP Hv. apply Math_max_upper.
    apply elem_of_scores. by exists f, v.
  - destruct (Math_max_attained
                (flat_map (λ entry, map (λ v, JS.toNumber (cvss v))
                                        (vulnerabilities entry))
                   (filter (λ entry, JS.startsWith (fileName entry) dependency
                                     = true) fs)) (-1)) as [E|Hin].
    + by left.
    + right. apply elem_of_scores in Hin as (f & v & Hf & HP & Hv & E).
      by exists f, v.
Qed.

(** C4 (as the code has it).  [highestCvssScore] is the maximum of [-1]
    and the scores of the findings whose unstripped [fileName] starts
    with the dependency name: it bounds every such score, it is [-1] or
    one of them, and it is [-1] when no [fileName] matches. *)
Theorem highestCvssScore_raw_prefix_max
    (dependency : string) (fs : list finding) :
  let score := getHighestCvssScoreForDependency dependency fs in
  (-1 <= score)%Q
  ∧ (∀ f v, f ∈ fs → JS.startsWith (fileName f) dependency = true →
            v ∈ vulnerabilities f → (JS.toNumber (cvss v) <= score)%Q)
  ∧ (score = (-1)%Q
     ∨ ∃ f v, f ∈ fs ∧ JS.startsWith (fileName f) dependency = true
              ∧ v ∈ vulnerabilities f ∧ score = JS.toNumber (cvss v))
  ∧ ((∀ f, f ∈ fs → JS.startsWith (fileName f) dependency = false) →
     score = (-1)%Q).
Proof.
  intros score.
  destruct (getHighestCvssScore_bounds dependency fs) as (Hlow & Hup & Hatt).
  split; [exact Hlow|]. split; [exact Hup|]. split; [exact Hatt|].
  intros Hno. destruct Hatt as [E|(f & v & Hf & HP & _)]; [done|].
  rewrite (Hno f Hf) in HP. discriminate.
Qed.

Lemma highestCvssScore_raw_prefix_max_witness :
  let fs := [one_finding "highlight.js:9.18.1" (Some 5%Q)] in
  (∀ f, f ∈ fs → JS.startsWith (fileName f) "lodash" = false)
  ∧ getHighestCvssScoreForDependency "lodash" fs = (-1)%Q.
Proof.
  intros fs.
  assert (∀ f, f ∈ fs → JS.startsWith (fileName f) "lodash" = false) as H.
  { intros f Hf. apply list_elem_of_singleton in Hf. by subst f. }
  split; [exact H|].
  exact (proj2 (proj2 (proj2
           (highestCvssScore_raw_prefix_max "lodash" fs))) H).
Defined.

(** C4 (counterexample).  For the package [highlight.js] and a finding
    on the file [highlight.js] the code returns the finding's score [5],
    while matching on the stripped subject name [highlight] finds no
    finding and gives [-1]. *)
Theorem highestCvssScore_not_stripped :
  let fs := [one_finding "highlight.js" (Some 5%Q)] in
  getHighestCvssScoreForDependency "highlight.js" fs = 5%Q
  ∧ claimed_highestCvssScore "highlight.js" fs = (-1)%Q
  ∧ getHighestCvssScoreForDependency "highlight.js" fs
    ≠ claimed_highestCvssScore "highlight.js" fs.
Proof. repeat split. discriminate. Qed.

Lemma elem_of_push_if (b : bool) (ty ty' : DependencyType)
    (types : list DependencyType) :
  ty' ∈ push_if b ty types ↔ ty' ∈ types ∨ (b = true ∧ ty' = ty).
Proof.
  unfold push_if. destruct b.
  - rewrite elem_of_app, list_elem_of_singleton. tauto.
  - intuition discriminate.
Qed.

Lemma classifyDependency_types dependency dev wp lag vs fs
    (ri : gmap string Q) (ty : DependencyType) :
  ty ∈ dependencyTypes (classifyDependency dependency dev wp lag vs fs ri)
  ↔ (ty = DEVELOPMENT_ONLY ∧ dependency ∈ dev)
    ∨ (ty = WITHIN_PROJECT ∧ dependency ∈ wp)
    ∨ (ty = LAGGING ∧ dependency ∈ lag)
    ∨ (ty = VULNERABLE ∧ dependency ∈ vs).
Proof.
  unfold classifyDependency. simpl.
  rewrite !elem_of_push_if, !includes_elem_of, elem_of_nil. tauto.
Qed.

(** C10.  The [vulnerable] tag is given by equality with a finding's
    [fileName] cut at the first [:] and with the first [.min] and [.js]
    removed; the score is above [-1] exactly when some finding whose
    unstripped [fileName] starts with the name has an entry above [-1].
    The two rules disagree: [chart.css] is tagged with score [-1], and
    [lodash] is not tagged yet has score [7]. *)
Theorem vulnerable_tag_and_score_use_different_matching :
  (∀ dependency dev wp lag fs (ri : gmap string Q),
     VULNERABLE ∈ dependencyTypes
       (classifyDependency dependency dev wp lag (map vulnerable_name fs) fs ri)
     ↔ ∃ f, f ∈ fs
            ∧ dependency
              = JS.replace
                  (JS.replace (JS.split_head (fileName f) ":") ".min" "")
                  ".js" "")
  ∧ (∀ dependency fs,
       (-1 < getHighestCvssScoreForDependency dependency fs)%Q
       ↔ ∃ f v, f ∈ fs ∧ JS.startsWith (fileName f) dependency = true
                ∧ v ∈ vulnerabilities f ∧ (-1 < JS.toNumber (cvss v))%Q)
  ∧ (let fs := [one_finding "chart.min.css" (Some 5%Q)] in
     let r := classifyDependency "chart.css" [] [] []
                (map vulnerable_name fs) fs ∅ in
     VULNERABLE ∈ dependencyTypes r ∧ highestCvssScore r = (-1)%Q)
  ∧ (let fs := [one_finding "lodash.merge:4.6.0" (Some 7%Q)] in
     let r := classifyDependency "lodash" [] [] []
                (map vulnerable_name fs) fs ∅ in
     (VULNERABLE ∉ dependencyTypes r) ∧ highestCvssScore r = 7%Q
     ∧ (-1 < highestCvssScore r)%Q).
Proof.
  split; [|split; [|split]].
  - intros dependency dev wp lag fs ri. rewrite classifyDependency_types.
    split.
    + intros [[? _]|[[? _]|[[? _]|[_ Hin]]]]; try discriminate.
      apply list_elem_of_In, in_map_iff in Hin as (f & <- & Hf).
      apply list_elem_of_In in Hf. by exists f.
    + intros (f & Hf & ->). do 3 right. split; [done|].
      apply list_elem_of_In, in_map_iff. exists f.
      by apply list_elem_of_In in Hf.
  - intros dependency fs.
    destruct (getHighestCvssScore_bounds dependency fs)
      as (Hlow & Hup & Hatt). simpl in *. split.
    + intros Hgt. destruct Hatt as [E|(f & v & Hf & HP & Hv & E)].
      * rewrite E in Hgt. lra.
      * exists f, v. by rewrite <- E.
    + intros (f & v & Hf & HP & Hv & Hgt).
      specialize (Hup f v Hf HP Hv). lra.
  - simpl. split; [|reflexivity].
    apply (bool_decide_unpack _). vm_compute. exact I.
  - simpl. split; [|split; [reflexivity|reflexivity]].
    apply (bool_decide_unpack _). vm_compute. exact I.
Qed.

(** ** Dependency tree view *)

Lemma findChildren_from_resolves (t : tree) (p : list string) (n : tree) :
  resolves t p n → findChildren_from t p = JS.keys (deps_or_empty n).
Proof.
  induction 1 as [t|t d dep child p n Hd Hget _ IH]; simpl; [done|].
  by rewrite Hd, Hget.
Qed.

Lemma findChildren_from_unresolved (t : tree) (p : list string) :
  (∀ n, ¬ resolves t p n) → findChildren_from t p = [].
Proof.
  revert t. induction p as [|dep p IH]; intros t Hno.
  - destruct (Hno t). constructor.
  - simpl. destruct (dependencies t) as [d|] eqn:Hd; [|done].
    destruct (JS.get d dep) as [child|] eqn:Hget; [|done].
    apply IH. intros n Hn. apply (Hno n). by econstructor.
Qed.

(** C9.  [findChildren] returns for every tree and every path: the keys
    of the node the path resolves to, and the empty list when the path
    resolves to no node, so that the expansion of such a path enqueues
    nothing. *)
Theorem findChildren_total (dependencyTree : tree) (currentPath : list string) :
  (∀ n, resolves dependencyTree currentPath n →
        findChildren dependencyTree currentPath = JS.keys (deps_or_empty n))
  ∧ ((∀ n, ¬ resolves dependencyTree currentPath n) →
     findChildren dependencyTree currentPath = []
     ∧ ∀ found, expand dependencyTree found currentPath = []).
Proof.
  split.
  - intros n Hn. by apply findChildren_from_resolves.
  - intros Hno. pose proof (findChildren_from_unresolved _ _ Hno) as E.
    split; [exact E|]. intros found. unfold expand, findChildren. by rewrite E.
Qed.

Lemma findChildren_total_witness :
  let t := object [("A", object [("B", leaf)])] in
  (∀ n, ¬ resolves t ["A"; "C"; "D"] n)
  ∧ findChildren t ["A"; "C"; "D"] = []
  ∧ findChildren t ["A"] = ["B"].
Proof.
  intros t.
  assert (∀ n, ¬ resolves t ["A"; "C"; "D"] n) as Hno.
  { intros n Hn. inversion Hn as [|? d ? child ? ? Hd Hget Hrest]; subst.
    injection Hd as <-. injection Hget as <-.
    inversion Hrest as [|? d' ? child' ? ? Hd' Hget' _]; subst.
    injection Hd' as <-. discriminate Hget'. }
  split; [exact Hno|]. split.
  - exact (proj1 (proj2 (findChildren_total t ["A"; "C"; "D"]) Hno)).
  - apply (proj1 (findChildren_total t ["A"]) (object [("B", leaf)])).
    econstructor; [reflexivity|reflexivity|constructor].
Defined.

(** ** Traversal engine: one iteration *)

Section Iteration.

Context (dependencyTree : tree).
Context (devDependencies withinProjectDependencies laggingDependencies
           vulnerabilities : list string).
Context (vulnerabilitiesData : list finding).
Context (releaseIntervals : gmap string Q).

Local Abbreviation classify' :=
  (classify devDependencies withinProjectDependencies laggingDependencies
     vulnerabilities vulnerabilitiesData releaseIntervals).
Local Abbreviation iteration' :=
  (iteration dependencyTree devDependencies withinProjectDependencies
     laggingDependencies vulnerabilities vulnerabilitiesData releaseIntervals).

(** Whatever the branch, the queue after an iteration is the rest of the
    queue followed by some of the expansion of the dequeued path. *)
Lemma iteration_queue (currentPath : list string)
    (rest : list (list string)) (s : state) :
  queue (iteration' currentPath rest s) = rest
  ∨ queue (iteration' currentPath rest s)
    = rest ++ expand dependencyTree (foundVulnerableDeps s) currentPath.
Proof.
  unfold iteration. destruct (last currentPath) as [n|]; [|by left].
  destruct (String.eqb n ""); [by left|].
  destruct (bool_decide (VULNERABLE ∈ _)); [by left|].
  destruct (bool_decide (DEVELOPMENT_ONLY ∉ _)); [by right|by left].
Qed.

Lemma iteration_found_mono (currentPath : list string)
    (rest : list (list string)) (s : state) :
  foundVulnerableDeps s ⊆ foundVulnerableDeps (iteration' currentPath rest s).
Proof.
  unfold iteration. destruct (last currentPath) as [n|]; [|done].
  destruct (String.eqb n ""); [done|].
  destruct (bool_decide (VULNERABLE ∈ _)); simpl; [set_solver|].
  by destruct (bool_decide (DEVELOPMENT_ONLY ∉ _)).
Qed.

Lemma expand_avoids_found (found : gset string) (currentPath q : list string)
    (n : string) :
  n ∈ found → q ∈ expand dependencyTree found currentPath → last q ≠ Some n.
Proof.
  intros Hn Hq. unfold expand in Hq.
  apply list_elem_of_In, in_map_iff in Hq as (child & <- & Hchild).
  apply list_elem_of_In, list_elem_of_filter in Hchild as [Hnot _].
  rewrite last_snoc. intros [= ->]. done.
Qed.

(** Apart from the value stored for a name that objects inherit from
    [Object.prototype], an iteration does for a vulnerable name what
    the specification says.  When the terminal name of the dequeued
    path is classified vulnerable, the iteration appends the simplified
    path to the report, puts the name in the found set and leaves the
    rest of the queue as it is; when the name is not inherited and its
    stored exposure is absent or a count, the iteration stores that
    count plus one; and from any state whose found set holds the name,
    an iteration keeps the name in the set and enqueues no path that
    ends in it. *)
Theorem vulnerable_node_is_recorded_not_expanded
    (currentPath : list string) (rest : list (list string)) (s : state)
    (currentNode : string) :
  last currentPath = Some currentNode →
  currentNode ≠ "" →
  VULNERABLE ∈ dependencyTypes (classify' currentNode) →
  let s' := iteration' currentPath rest s in
  (JS.inherited currentNode = false →
   (∀ t, vulnerabilityExposure s !! currentNode ≠ Some (Text t)) →
   vulnerabilityExposure s' !! currentNode
   = Some (Count (default 0 (count_of <$> vulnerabilityExposure s !! currentNode)
                  + 1)))
  ∧ report_paths s'
    = report_paths s ++ [simplifyPath currentPath withinProjectDependencies]
  ∧ currentNode ∈ foundVulnerableDeps s'
  ∧ queue s' = rest
  ∧ ∀ path' rest' s1,
      currentNode ∈ foundVulnerableDeps s1 →
      currentNode ∈ foundVulnerableDeps (iteration' path' rest' s1)
      ∧ ∃ added, queue (iteration' path' rest' s1) = rest' ++ added
                 ∧ ∀ q, q ∈ added → last q ≠ Some currentNode.
Proof.
  intros Hlast Hne Hvuln s'. subst s'. unfold iteration at 1 2 3 4.
  rewrite Hlast. apply String.eqb_neq in Hne. rewrite Hne.
  rewrite bool_decide_eq_true_2 by done. simpl.
  split; [|split; [done|split; [set_solver|split; [done|]]]].
  { intros Hown Htext. unfold assign_exposure, exposure_plus_one.
    destruct (String.eqb currentNode "__proto__") eqn:E.
    - apply String.eqb_eq in E as ->. discriminate Hown.
    - rewrite lookup_insert_eq, Hown.
      destruct (vulnerabilityExposure s !! currentNode) as [[c|t]|];
        [done| |done]. by destruct (Htext t). }
  intros path' rest' s1 Hin. split.
  - by apply iteration_found_mono.
  - destruct (iteration_queue path' rest' s1) as [E|E]; rewrite E.
    + exists []. split; [by rewrite app_nil_r|]. intros q Hq.
      by apply elem_of_nil in Hq.
    + eexists. split; [done|]. intros q Hq.
      by eapply expand_avoids_found.
Qed.

(** C2 (as the code has it).  When the terminal name of the dequeued
    path is classified development-only and not vulnerable, the
    iteration expands nothing: the queue is the rest of the queue, and
    the reported paths, the exposure counts and the found set are
    unchanged. *)
Theorem development_only_node_not_expanded
    (currentPath : list string) (rest : list (list string)) (s : state)
    (currentNode : string) :
  last currentPath = Some currentNode →
  DEVELOPMENT_ONLY ∈ dependencyTypes (classify' currentNode) →
  VULNERABLE ∉ dependencyTypes (classify' currentNode) →
  let s' := iteration' currentPath rest s in
  queue s' = rest
  ∧ report_paths s' = report_paths s
  ∧ vulnerabilityExposure s' = vulnerabilityExposure s
  ∧ foundVulnerableDeps s' = foundVulnerableDeps s.
Proof.
  intros Hlast Hdev Hvuln s'. subst s'. unfold iteration. rewrite Hlast.
  destruct (String.eqb currentNode ""); [done|].
  rewrite bool_decide_eq_false_2 by done.
  rewrite bool_decide_eq_false_2; [done|]. by intros H; apply H.
Qed.

End Iteration.

(** ** Termination of the two loops *)

Lemma list_sum_rev (l : list nat) : list_sum (rev l) = list_sum l.
Proof.
  induction l as [|x l IH]; simpl; [done|].
  rewrite list_sum_app, IH. simpl. lia.
Qed.

Lemma tsize_unfold (node : tree) :
  tsize node = S (list_sum (map (λ e, tsize e.2) (deps_or_empty node))).
Proof. by destruct node as [[l|]]. Qed.

Lemma stack_size_push (node : tree) (path : list string)
    (stack : list (tree * list string)) :
  S (stack_size
       (rev (map (λ e, (e.2, path ++ [e.1])) (deps_or_empty node)) ++ stack))
  = stack_size ((node, path) :: stack).
Proof.
  unfold stack_size. rewrite map_app, list_sum_app, map_rev, list_sum_rev.
  rewrite map_map. simpl. rewrite (tsize_unfold node). lia.
Qed.

(** The seeding walk pops one node per round, so the number of nodes on
    and below the stack is enough fuel. *)
Lemma initializeQueue_loop_terminates (fuel : nat)
    (stack : list (tree * list string)) (queue : list (list string)) :
  stack_size stack ≤ fuel → is_Some (initializeQueue_loop fuel stack queue).
Proof.
  revert stack queue.
  induction fuel as [|fuel IH]; intros stack queue Hle.
  - destruct stack as [|[node path] stack]; simpl; [done|].
    unfold stack_size in Hle. simpl in Hle.
    rewrite (tsize_unfold node) in Hle. lia.
  - destruct stack as [|[node path] stack]; simpl; [done|].
    apply IH. rewrite <- stack_size_push in Hle. lia.
Qed.

Lemma initializeQueue_loop_mono (fuel fuel' : nat)
    (stack : list (tree * list string)) (queue q : list (list string)) :
  initializeQueue_loop fuel stack queue = Some q → fuel ≤ fuel' →
  initializeQueue_loop fuel' stack queue = Some q.
Proof.
  revert fuel' stack queue.
  induction fuel as [|fuel IH]; intros fuel' stack queue Hrun Hle.
  - destruct stack as [|[node path] stack]; simpl in Hrun; [|done].
    by destruct fuel'.
  - destruct stack as [|[node path] stack]; simpl in Hrun.
    + by destruct fuel'.
    + destruct fuel' as [|fuel']; [lia|]. simpl. apply IH; [done|lia].
Qed.

Lemma wsize_pos (t : tree) : 1 ≤ wsize t.
Proof. destruct t as [[l|]]; simpl; lia. Qed.

Lemma weight_from_pos (node : tree) (p : list string) :
  1 ≤ weight_from node p.
Proof.
  revert node. induction p as [|dep p IH]; intros node; simpl.
  - apply wsize_pos.
  - destruct (dependencies node) as [d|]; [|done].
    destruct (JS.get d dep); [apply IH|done].
Qed.

Lemma get_wsize_le (l : list (string * tree)) (k : string) (child : tree) :
  JS.get l k = Some child →
  wsize child ≤ list_max (map (λ e, wsize e.2) l).
Proof.
  induction l as [|[k' v] l IH]; simpl; [done|].
  destruct (String.eqb k k').
  - intros [= ->]. lia.
  - intros H. specialize (IH H). lia.
Qed.

Lemma get_of_key (l : list (string * tree)) (k : string) :
  In k (JS.keys l) → is_Some (JS.get l k).
Proof.
  induction l as [|[k' v] l IH]; simpl; [done|].
  destruct (String.eqb k k') eqn:E; [by eexists|].
  intros [->|Hin]; [|by apply IH].
  by rewrite String.eqb_refl in E.
Qed.

Lemma list_sum_le_const (l : list nat) (b : nat) :
  Forall (λ x, x ≤ b) l → list_sum l ≤ length l * b.
Proof. induction 1; simpl; lia. Qed.

(** The children of a path weigh, together, less than the path. *)
Lemma children_weight (node : tree) (p : list string) :
  list_sum (map (λ child, weight_from node (p ++ [child]))
                (findChildren_from node p))
  < weight_from node p.
Proof.
  revert node. induction p as [|dep p IH]; intros node.
  - destruct node as [[l|]]; simpl; [|lia].
    apply Nat.lt_succ_r.
    transitivity (length (JS.keys l) * list_max (map (λ e, wsize e.2) l)).
    + rewrite <- (length_map (λ child,
        match JS.get l child with Some c => wsize c | None => 1 end)
        (JS.keys l)).
      apply list_sum_le_const, List.Forall_forall.
      intros x Hx. apply in_map_iff in Hx as (k & <- & Hk).
      destruct (get_of_key l k Hk) as [c Hc]. rewrite Hc.
      by eapply get_wsize_le.
    + unfold JS.keys. by rewrite length_map.
  - simpl. destruct (dependencies node) as [d|]; simpl; [|lia].
    destruct (JS.get d dep) as [child|]; simpl; [apply IH|lia].
Qed.

Lemma list_sum_filter_le {A} (P : A → Prop) `{∀ x, Decision (P x)}
    (f : A → nat) (l : list A) :
  list_sum (map f (filter P l)) ≤ list_sum (map f l).
Proof.
  induction l as [|x l IH]; simpl; [done|].
  destruct (decide (P x)).
  - rewrite filter_cons_True by done. simpl. lia.
  - rewrite filter_cons_False by done. lia.
Qed.

Lemma expand_weight (t : tree) (found : gset string) (p : list string) :
  qweight t (expand t found p) < weight_from t p.
Proof.
  unfold qweight, expand, findChildren. rewrite map_map.
  eapply Nat.le_lt_trans; [|apply children_weight].
  apply (list_sum_filter_le (λ child, child ∉ found)).
Qed.

Section Termination.

Context (dependencyTree : tree).
Context (devDependencies withinProjectDependencies laggingDependencies
           vulnerabilities : list string).
Context (vulnerabilitiesData : list finding).
Context (releaseIntervals : gmap string Q).

Local Abbreviation iteration' :=
  (iteration dependencyTree devDependencies withinProjectDependencies
     laggingDependencies vulnerabilities vulnerabilitiesData releaseIntervals).
Local Abbreviation traverse' :=
  (traverse dependencyTree devDependencies withinProjectDependencies
     laggingDependencies vulnerabilities vulnerabilitiesData releaseIntervals).
Local Abbreviation visits' :=
  (visits dependencyTree devDependencies withinProjectDependencies
     laggingDependencies vulnerabilities vulnerabilitiesData releaseIntervals).

(** Every iteration lowers the weight of the queue. *)
Lemma iteration_weight (currentPath : list string)
    (rest : list (list string)) (s : state) :
  qweight dependencyTree (queue (iteration' currentPath rest s))
  < qweight dependencyTree (currentPath :: rest).
Proof.
  pose proof (weight_from_pos dependencyTree currentPath) as Hpos.
  pose proof (expand_weight dependencyTree (foundVulnerableDeps s) currentPath)
    as Hexp.
  destruct (iteration_queue dependencyTree devDependencies
              withinProjectDependencies laggingDependencies vulnerabilities
              vulnerabilitiesData releaseIntervals currentPath rest s)
    as [E|E]; rewrite E; unfold qweight in *; simpl.
  - lia.
  - rewrite map_app, list_sum_app. lia.
Qed.

Lemma traverse_terminates (fuel : nat) (s : state) :
  qweight dependencyTree (queue s) ≤ fuel →
  ∃ s' l, traverse' fuel s = Some s' ∧ queue s' = []
          ∧ visits' fuel s = Some l
          ∧ length l ≤ qweight dependencyTree (queue s).
Proof.
  revert s. induction fuel as [|fuel IH]; intros s Hle.
  - destruct (queue s) as [|p rest] eqn:Hq.
    + exists s, []. simpl. rewrite Hq. simpl. repeat split; lia || done.
    + pose proof (weight_from_pos dependencyTree p).
      unfold qweight in Hle. simpl in Hle. lia.
  - destruct (queue s) as [|p rest] eqn:Hq.
    + exists s, []. simpl. rewrite Hq. simpl. repeat split; lia || done.
    + pose proof (iteration_weight p rest s) as Hlt.
      destruct (IH (iteration' p rest s)) as (s' & l & Ht & Hempty & Hv & Hlen);
        [lia|].
      exists s', (p :: l). simpl. rewrite Hq, Ht, Hv. simpl.
      repeat split; [done|lia].
Qed.


End Termination.



(** C3 (as the code has it).  The seeding walk and the main loop stop
    on every tree and for all classification inputs: from some amount
    of fuel on, the seed queue, the final state with an empty queue and
    the report exist, and the number of dequeued paths is at most the
    weight of the seed queue. *)
Theorem traversal_terminates (d : documents) :
  ∃ fuel seed, ∀ fuel', fuel ≤ fuel' →
    initializeQueueWithNestedDeps fuel' (step1_output d) = Some seed
    ∧ ∃ r s l, step6_constructPath fuel' d = Some r
               ∧ run_traversal fuel' d = Some s ∧ queue s = []
               ∧ run_visits fuel' d = Some l
               ∧ length l ≤ qweight (step1_output d) seed.
Proof.
  destruct (initializeQueue_loop_terminates (tsize (step1_output d))
              [(step1_output d, [])] []) as [seed Hseed].
  { unfold stack_size. simpl. lia. }
  exists (max (tsize (step1_output d)) (qweight (step1_output d) seed)), seed.
  intros fuel' Hle.
  assert (initializeQueueWithNestedDeps fuel' (step1_output d) = Some seed)
    as Hinit.
  { eapply initializeQueue_loop_mono; [exact Hseed|lia]. }
  split; [exact Hinit|].
  destruct (traverse_terminates (step1_output d)
              (JS.keys (step2_output d)) (JS.array_keys (step3_output d))
              (JS.keys (laggingDependencies (step4_output d)))
              (map vulnerable_name (step5_output d)) (step5_output d)
              (releaseInterval (step4_output d)) fuel' (initial_state seed))
    as (s & l & Ht & Hempty & Hv & Hlen); [simpl; lia|].
  assert (run_traversal fuel' d = Some s) as Hrun.
  { unfold run_traversal. rewrite Hinit. exact Ht. }
  eexists _, s, l. split; [|split; [exact Hrun|split; [exact Hempty|split]]].
  - unfold step6_constructPath. rewrite Hrun. reflexivity.
  - unfold run_visits. rewrite Hinit. exact Hv.
  - exact Hlen.
Qed.

Lemma traversal_terminates_witness :
  ∃ fuel r s,
    step6_constructPath fuel example_documents = Some r
    ∧ run_traversal fuel example_documents = Some s
    ∧ queue s = [].
Proof.
  destruct (traversal_terminates example_documents) as (fuel & seed & H).
  destruct (H fuel (le_n fuel)) as (_ & r & s & l & Hr & Hs & Hq & _).
  exists fuel, r, s. split; [exact Hr|]. split; [exact Hs|exact Hq].
Defined.

(** C3 (counterexample).  On the chain [A → B → C] with no finding and
    no classification the main loop dequeues the path [A, B, C] three
    times: once from the seed and once for each of the two times its
    parent [A, B] is dequeued. *)
Theorem third_visit_of_a_path :
  let d := documents_of (object [("A", object [("B", object [("C", leaf)])])])
             [] [] in
  initializeQueueWithNestedDeps 100 (step1_output d)
  = Some [["A"]; ["A"; "B"]; ["A"; "B"; "C"]]
  ∧ run_visits 100 d
    = Some [["A"]; ["A"; "B"]; ["A"; "B"; "C"];
            ["A"; "B"]; ["A"; "B"; "C"]; ["A"; "B"; "C"]]
  ∧ (λ l, length (filter (λ p, last p = Some "C") l)) <$> run_visits 100 d
    = Some 3.
Proof. repeat split; vm_compute; reflexivity. Qed.



(** ** Ranking *)

Section SortByKey.

Context {A : Type} (key : A → Q).

Local Abbreviation cmp := (λ a b : A, (key b - key a)%Q).
Local Abbreviation before := (λ a b : A, (key b <= key a)%Q).
Local Abbreviation tied q := (λ a : A, Qeq_bool (key a) q = true).

Lemma insert_Permutation (x : A) (l : list A) :
  JS.insert cmp x l ≡ₚ x :: l.
Proof.
  induction l as [|y l IH]; simpl; [done|].
  destruct (Qlt_le_dec 0 (key y - key x)); [|done].
  rewrite IH. apply perm_swap.
Qed.

Lemma sort_Permutation (l : list A) : JS.sort cmp l ≡ₚ l.
Proof.
  induction l as [|x l IH]; simpl; [done|].
  by rewrite insert_Permutation, IH.
Qed.

Lemma insert_StronglySorted (x : A) (l : list A) :
  StronglySorted before l → StronglySorted before (JS.insert cmp x l).
Proof.
  induction 1 as [|y l Hsorted IH Hall]; simpl.
  - repeat constructor.
  - destruct (Qlt_le_dec 0 (key y - key x)) as [Hlt|Hle].
    + constructor; [exact IH|].
      rewrite insert_Permutation. constructor; [lra|exact Hall].
    + constructor; [by constructor|].
      constructor; [lra|].
      eapply Forall_impl; [exact Hall|]. simpl. intros z Hz. lra.
Qed.

Lemma sort_StronglySorted (l : list A) :
  StronglySorted before (JS.sort cmp l).
Proof.
  induction l as [|x l IH]; simpl; [constructor|].
  by apply insert_StronglySorted.
Qed.

(** Insertion moves an element only behind elements of a larger key, so
    the elements of one key keep their order. *)
Lemma insert_tied (q : Q) (x : A) (l : list A) :
  filter (tied q) (JS.insert cmp x l) = filter (tied q) (x :: l).
Proof.
  induction l as [|y l IH]; simpl; [done|].
  destruct (Qlt_le_dec 0 (key y - key x)) as [Hlt|Hle]; [|done].
  destruct (decide (tied q y)) as [Hy|Hy].
  - rewrite (filter_cons_True _ y) by done. rewrite IH.
    assert (¬ tied q x) as Hx.
    { intros Hx. apply Qeq_bool_iff in Hx, Hy. lra. }
    rewrite !(filter_cons_False _ x) by done.
    by rewrite (filter_cons_True _ y).
  - rewrite (filter_cons_False _ y) by done. rewrite IH.
    destruct (decide (tied q x)).
    + rewrite !(filter_cons_True _ x) by done.
      by rewrite (filter_cons_False _ y).
    + rewrite !(filter_cons_False _ x) by done.
      by rewrite (filter_cons_False _ y).
Qed.

Lemma sort_tied (q : Q) (l : list A) :
  filter (tied q) (JS.sort cmp l) = filter (tied q) l.
Proof.
  induction l as [|x l IH]; simpl; [done|].
  rewrite insert_tied.
  destruct (decide (tied q x)).
  - rewrite !(filter_cons_True _ x) by done. by rewrite IH.
  - rewrite !(filter_cons_False _ x) by done. by rewrite IH.
Qed.

Lemma StronglySorted_lookup (l : list A) (i j : nat) (a b : A) :
  StronglySorted before l → i < j → l !! i = Some a → l !! j = Some b →
  (key b <= key a)%Q.
Proof.
  intros Hsorted. revert i j.
  induction Hsorted as [|x l _ IH Hall]; intros i j Hij Hi Hj; [done|].
  destruct j as [|j]; [lia|]. simpl in Hj. destruct i as [|i].
  - simpl in Hi. injection Hi as ->.
    rewrite List.Forall_forall in Hall. apply Hall.
    by eapply list_elem_of_In, list_elem_of_lookup_2.
  - simpl in Hi. apply (IH i j); [lia|done|done].
Qed.

End SortByKey.

(** C6 (as the code has it).  The reported paths are the paths found by
    the traversal, reordered so that the score of an earlier path is at
    least the score of a later one, where the score of a path is the
    maximum of [0] and of the [highestCvssScore] of its names' records;
    paths of equal score keep the order in which they were found. *)
Theorem paths_sorted_by_floored_score
    (fuel : nat) (d : documents) (s : state) (r : report) :
  run_traversal fuel d = Some s →
  step6_constructPath fuel d = Some r →
  paths r ≡ₚ report_paths s
  ∧ (∀ i j a b, i < j → paths r !! i = Some a → paths r !! j = Some b →
       (pathScore (dependencies_of r) b <= pathScore (dependencies_of r) a)%Q)
  ∧ (∀ q, filter (λ a, Qeq_bool (pathScore (dependencies_of r) a) q = true)
                 (paths r)
          = filter (λ a, Qeq_bool (pathScore (dependencies_of r) a) q = true)
                   (report_paths s)).
Proof.
  intros Hs Hr. unfold step6_constructPath in Hr. rewrite Hs in Hr.
  injection Hr as <-. simpl. unfold comparePaths. split; [|split].
  - apply sort_Permutation.
  - intros i j a b. apply StronglySorted_lookup, sort_StronglySorted.
  - intros q. apply sort_tied.
Qed.

Lemma paths_sorted_by_floored_score_witness :
  ∃ s r,
    run_traversal 40 example_documents = Some s
    ∧ step6_constructPath 40 example_documents = Some r
    ∧ paths r ≡ₚ report_paths s
    ∧ (∀ i j a b, i < j → paths r !! i = Some a → paths r !! j = Some b →
         (pathScore (dependencies_of r) b <= pathScore (dependencies_of r) a)%Q).
Proof.
  destruct (run_traversal 40 example_documents) as [s|] eqn:Hs;
    [|by vm_compute in Hs].
  destruct (step6_constructPath 40 example_documents) as [r|] eqn:Hr;
    [|by vm_compute in Hr].
  exists s, r. split; [done|]. split; [done|].
  destruct (paths_sorted_by_floored_score 40 example_documents s r Hs Hr)
    as (Hperm & Hdesc & _).
  by split.
Defined.

(** C6 (counterexample).  [chart.css] is tagged vulnerable with score
    [-1] and [zlib] is tagged vulnerable with score [0]; both paths get the
    score [0] in the comparator and keep their order, so a path whose
    records have maximum [-1] precedes a path whose records have
    maximum [0]. *)
Theorem record_maximum_not_descending :
  let d := documents_of (object [("chart.css", leaf); ("zlib", leaf)]) []
             [one_finding "chart.min.css" (Some 5%Q);
              one_finding "zlib" (Some 0%Q)] in
  paths <$> step6_constructPath 100 d = Some [["chart.css"]; ["zlib"]]
  ∧ (λ r, claimed_pathMax (dependencies_of r) ["chart.css"])
      <$> step6_constructPath 100 d = Some (Some (-1)%Q)
  ∧ (λ r, claimed_pathMax (dependencies_of r) ["zlib"])
      <$> step6_constructPath 100 d = Some (Some 0%Q)
  ∧ (λ r, claimed_descending (dependencies_of r) (paths r))
      <$> step6_constructPath 100 d = Some false.
Proof. repeat split; vm_compute; reflexivity. Qed.

(** C2 (counterexample).  In the tree [D → X → V] with [D]
    development-only and [V] vulnerable, the seed queue already holds
    the path [D, X, V]; it is reported, although [X] and [V] lie beyond
    the development-only, non-vulnerable [D] and [X] is neither
    development-only nor vulnerable. *)
Theorem development_only_subtree_reported :
  let d := documents_of
             (object [("D", object [("X", object [("V", leaf)])])])
             ["D"] [one_finding "V" (Some 5%Q)] in
  paths <$> step6_constructPath 100 d
  = Some [["D"; "X"; "V"]; ["D"; "X"; "V"]]
  ∧ (λ r, dependencyTypes <$> dependencies_of r !! "D")
      <$> step6_constructPath 100 d = Some (Some [DEVELOPMENT_ONLY])
  ∧ (λ r, dependencyTypes <$> dependencies_of r !! "X")
      <$> step6_constructPath 100 d = Some (Some [])
  ∧ claimed_pruned <$> step6_constructPath 100 d = Some false.
Proof. repeat split; vm_compute; reflexivity. Qed.

Lemma max2_Qeq (a a' b b' : Q) :
  (a == a')%Q → (b == b')%Q → (JS.max2 a b == JS.max2 a' b')%Q.
Proof.
  intros Ha Hb.
  destruct (max2_cases a b) as [[-> H]|[-> H]],
           (max2_cases a' b') as [[-> H']|[-> H']]; lra.
Qed.

Lemma max2_floor (x : Q) : (0 <= x)%Q → (JS.max2 x 0 == x)%Q.
Proof. intros H. destruct (max2_cases x 0) as [[-> H']|[-> H']]; lra. Qed.

Lemma or_num_zero (v : Q) : (JS.or_num v 0 == v)%Q.
Proof.
  unfold JS.or_num. destruct (Qeq_bool v 0) eqn:E; [|reflexivity].
  apply Qeq_bool_iff in E. by rewrite E.
Qed.

Lemma pathScore_fold (deps : dependencies_object) (a : list string)
    (x x' : Q) :
  (0 <= x)%Q → (x == x')%Q →
  (fold_left (λ max score, JS.max2 max score)
     (map (λ node, match read_record deps node with
                   | Some r => JS.or_num (highestCvssScore r) 0
                   | None => 0%Q
                   end) a) x
   == JS.Math_max x'
        (omap (λ node, highestCvssScore <$> read_record deps node) a))%Q.
Proof.
  unfold JS.Math_max. revert x x'.
  induction a as [|node a IH]; intros x x' Hpos Heq; simpl; [done|].
  destruct (read_record deps node) as [r|]; simpl.
  - apply IH.
    + destruct (max2_cases x (JS.or_num (highestCvssScore r) 0))
        as [[-> H]|[-> H]]; lra.
    + apply max2_Qeq; [done|apply or_num_zero].
  - apply IH.
    + destruct (max2_cases x 0) as [[-> H]|[-> H]]; lra.
    + rewrite max2_floor; done.
Qed.

(** The score used by the comparator is, as a number, the maximum of
    [0] and the [highestCvssScore] of the records that
    [report.dependencies] yields for the path's names. *)
Lemma pathScore_floored (deps : dependencies_object)
    (a : list string) :
  (pathScore deps a
   == JS.Math_max 0
        (omap (λ node, highestCvssScore <$> read_record deps node) a))%Q.
Proof. apply pathScore_fold; [lra|reflexivity]. Qed.

Lemma vulnerable_node_is_recorded_not_expanded_witness :
  let fs := [one_finding "minimist:0.0.8" (Some (98 # 10)%Q)] in
  let s := initial_state [["express"; "minimist"]; ["mocha"]] in
  let s' := iteration example_tree ["mocha"] [] [] ["minimist"] fs ∅
              ["express"; "minimist"] [["mocha"]] s in
  vulnerabilityExposure s' !! "minimist" = Some (Count 1)
  ∧ report_paths s' = [["express"; "minimist"]]
  ∧ "minimist" ∈ foundVulnerableDeps s'
  ∧ queue s' = [["mocha"]].
Proof.
  intros fs s s'.
  destruct (vulnerable_node_is_recorded_not_expanded example_tree
              ["mocha"] [] [] ["minimist"] fs ∅
              ["express"; "minimist"] [["mocha"]] s "minimist")
    as (H1 & H2 & H3 & H4 & _).
  - reflexivity.
  - discriminate.
  - apply (bool_decide_unpack _). vm_compute. exact I.
  - split; [|split; [exact H2|split; [exact H3|exact H4]]].
    apply H1; [reflexivity|]. intros t. discriminate.
Defined.

(** C7.  For the package [constructor], classified vulnerable,
    [vulnerabilityExposure] has no own property and the read in
    [(vulnerabilityExposure[currentNode] || 0) + 1] yields the function
    that every object inherits from [Object.prototype]: the value
    stored is the text of that function followed by [1], not the count
    [1], and the report of a run on the tree with this one package
    carries that string. *)
Theorem inherited_name_gets_no_count :
  let fs := [one_finding "constructor:1.0.0" (Some 5%Q)] in
  let t := object [("constructor", leaf)] in
  let s := initial_state [["constructor"]] in
  let s' := iteration t [] [] [] (map vulnerable_name fs) fs ∅
              ["constructor"] [] s in
  VULNERABLE ∈ dependencyTypes
    (classify [] [] [] (map vulnerable_name fs) fs ∅ "constructor")
  ∧ vulnerabilityExposure s !! "constructor" = None
  ∧ vulnerabilityExposure s' !! "constructor"
    = Some (Text "function Object() { [native code] }1")
  ∧ vulnerabilityExposure s' !! "constructor" ≠ Some (Count 1)
  ∧ (λ r, exposure_of r !! "constructor")
      <$> step6_constructPath 100 (documents_of t [] fs)
    = Some (Some (Text "function Object() { [native code] }1")).
Proof.
  intros fs t s s'. split; [|split; [|split; [|split]]].
  - apply (bool_decide_unpack _). vm_compute. exact I.
  - reflexivity.
  - vm_compute. reflexivity.
  - vm_compute. discriminate.
  - vm_compute. reflexivity.
Qed.

Lemma development_only_node_not_expanded_witness :
  let s := initial_state [["mocha"]; ["express"]] in
  let s' := iteration example_tree ["mocha"] [] [] ["minimist"] [] ∅
              ["mocha"] [["express"]] s in
  queue s' = [["express"]] ∧ report_paths s' = [].
Proof.
  intros s s'.
  destruct (development_only_node_not_expanded example_tree
              ["mocha"] [] [] ["minimist"] [] ∅
              ["mocha"] [["express"]] s "mocha")
    as (H1 & H2 & _).
  - reflexivity.
  - apply (bool_decide_unpack _). vm_compute. exact I.
  - apply (bool_decide_unpack _). vm_compute. exact I.
  - split; [exact H1|exact H2].
Defined.

(** * Further properties of the engine and of the other steps *)

(** ** Path simplifier *)

Lemma simplify_loop_from (wp p acc buf : list string) :
  simplify_loop wp p acc buf = acc ++ simplify_from wp p (last buf).
Proof.
  revert acc buf. induction p as [|x p IH]; intros acc buf; simpl.
  - by rewrite app_nil_r.
  - destruct (JS.includes wp x).
    + by rewrite IH, last_snoc.
    + destruct (last buf) as [b|] eqn:Hlast.
      * rewrite IH. simpl. by rewrite <- app_assoc.
      * rewrite IH, Hlast. by rewrite <- app_assoc.
Qed.

Lemma simplifyPath_from (p wp : list string) :
  simplifyPath p wp = simplify_from wp p None.
Proof. unfold simplifyPath. by rewrite simplify_loop_from. Qed.

Lemma simplify_from_sublist (wp p : list string) (b : option string) :
  simplify_from wp p b `sublist_of` from_option (λ y, [y]) [] b ++ p.
Proof.
  revert b. induction p as [|x p IH]; intros b; simpl.
  - apply sublist_nil_l.
  - destruct (JS.includes wp x).
    + specialize (IH (Some x)). simpl in IH.
      destruct b as [y|]; simpl; [by apply sublist_cons|done].
    + specialize (IH None). simpl in IH.
      destruct b as [y|]; simpl; repeat apply sublist_skip; done.
Qed.

(** X1.  The simplified path is a subsequence of the path: it only
    drops names, never adds or reorders them, and is no longer than the
    path. *)
Theorem simplifyPath_sublist (p wp : list string) :
  simplifyPath p wp `sublist_of` p
  ∧ length (simplifyPath p wp) ≤ length p.
Proof.
  assert (simplifyPath p wp `sublist_of` p) as H.
  { rewrite simplifyPath_from. apply (simplify_from_sublist wp p None). }
  split; [exact H|]. by apply sublist_length.
Qed.

Lemma simplify_from_idem (wp p : list string) (b : option string) :
  (∀ y, b = Some y → JS.includes wp y = true) →
  simplify_from wp (simplify_from wp p b) None = simplify_from wp p b.
Proof.
  revert b. induction p as [|x p IH]; intros b Hb; simpl; [done|].
  destruct (JS.includes wp x) eqn:Hx.
  - apply IH. by intros y [= <-].
  - destruct b as [y|]; simpl.
    + rewrite (Hb y eq_refl), Hx. f_equal. f_equal. by apply IH.
    + rewrite Hx. f_equal. by apply IH.
Qed.

(** X2.  Simplifying a simplified path changes nothing. *)
Theorem simplifyPath_idempotent (p wp : list string) :
  simplifyPath (simplifyPath p wp) wp = simplifyPath p wp.
Proof.
  rewrite !simplifyPath_from. by apply simplify_from_idem.
Qed.

Lemma simplify_from_split (wp pre post : list string) (x : string)
    (b : option string) :
  JS.includes wp x = false →
  simplify_from wp (pre ++ x :: post) b
  = simplify_from wp (pre ++ [x]) b ++ simplify_from wp post None.
Proof.
  intros Hx. revert b. induction pre as [|z pre IH]; intros b; simpl.
  - rewrite Hx. by destruct b.
  - destruct (JS.includes wp z); [by apply IH|].
    destruct b; simpl; by rewrite IH.
Qed.

Lemma simplify_from_run (wp run : list string) (x : string)
    (b : option string) :
  Forall (λ z, JS.includes wp z = true) run →
  JS.includes wp x = false →
  simplify_from wp (run ++ [x]) b
  = match last run with
    | Some y => [y; x]
    | None => from_option (λ y, [y]) [] b ++ [x]
    end.
Proof.
  intros Hrun Hx. revert b.
  induction Hrun as [|z run Hz _ IH]; intros b; simpl.
  - rewrite Hx. by destruct b.
  - rewrite Hz, IH. destruct run as [|z' run]; [done|].
    change (last (z :: z' :: run)) with (last (z' :: run)).
    destruct (last (z' :: run)) eqn:E; [done|].
    apply last_None in E. discriminate.
Qed.

(** X3.  A name outside the within-project set cuts the path: what
    precedes it, with that name, and what follows it are simplified
    independently, whatever the set and the rest of the path are; and a
    run of within-project names followed by such a name gives the last
    name of the run and that name, or that name alone when the run is
    empty. *)
Theorem simplifyPath_cut (wp pre post run : list string) (x : string) :
  JS.includes wp x = false →
  simplifyPath (pre ++ x :: post) wp
  = simplifyPath (pre ++ [x]) wp ++ simplifyPath post wp
  ∧ (Forall (λ z, JS.includes wp z = true) run →
     simplifyPath (run ++ [x]) wp
     = match last run with Some y => [y; x] | None => [x] end).
Proof.
  intros Hx. rewrite !simplifyPath_from. split.
  - by apply simplify_from_split.
  - intros Hrun. by rewrite simplify_from_run.
Qed.

Lemma simplifyPath_cut_witness :
  simplifyPath (["app"] ++ "express" :: ["core"; "util"; "qs"])
               ["core"; "util"]
  = simplifyPath (["app"] ++ ["express"]) ["core"; "util"]
    ++ simplifyPath ["core"; "util"; "qs"] ["core"; "util"]
  ∧ simplifyPath (["core"; "util"] ++ ["express"]) ["core"; "util"]
    = ["util"; "express"].
Proof.
  destruct (simplifyPath_cut ["core"; "util"] ["app"] ["core"; "util"; "qs"]
              ["core"; "util"] "express" eq_refl) as [Hcut Hrun].
  split; [exact Hcut|]. apply Hrun. repeat constructor.
Defined.

(** X4.  A path with no within-project name is returned unchanged. *)
Theorem simplifyPath_outside_identity (p wp : list string) :
  Forall (λ x, JS.includes wp x = false) p → simplifyPath p wp = p.
Proof.
  intros H. rewrite simplifyPath_from.
  induction H as [|x p Hx _ IH]; simpl; [done|].
  by rewrite Hx, IH.
Qed.

Lemma simplifyPath_outside_identity_witness :
  simplifyPath ["express"; "qs"] ["core"] = ["express"; "qs"].
Proof.
  apply simplifyPath_outside_identity. repeat constructor.
Defined.

(** ** Seeding walk *)

Lemma tree_ind (P : tree → Prop) :
  P (Node None) →
  (∀ l, Forall (λ e, P e.2) l → P (Node (Some l))) →
  ∀ t, P t.
Proof.
  intros Hnone Hsome. fix IH 1. intros [[l|]]; [|exact Hnone].
  apply Hsome. induction l as [|[k c] l IHl]; constructor; [apply IH|exact IHl].
Qed.

Lemma walk_unfold (node : tree) (path : list string) :
  walk node path
  = map (λ e, path ++ [e.1]) (deps_or_empty node)
    ++ concat (rev (map (λ e, walk e.2 (path ++ [e.1])) (deps_or_empty node))).
Proof. by destruct node as [[l|]]. Qed.

Lemma initializeQueue_loop_walk (fuel : nat)
    (stack : list (tree * list string)) (queue : list (list string)) :
  stack_size stack ≤ fuel →
  initializeQueue_loop fuel stack queue
  = Some (queue ++ concat (map (λ e, walk e.1 e.2) stack)).
Proof.
  revert stack queue.
  induction fuel as [|fuel IH]; intros stack queue Hle.
  - destruct stack as [|[node path] stack]; simpl.
    + by rewrite app_nil_r.
    + unfold stack_size in Hle. simpl in Hle.
      rewrite (tsize_unfold node) in Hle. lia.
  - destruct stack as [|[node path] stack]; simpl.
    + by rewrite app_nil_r.
    + rewrite IH by (apply le_S_n; by rewrite stack_size_push).
      f_equal. rewrite (walk_unfold node path).
      rewrite map_app, concat_app, map_rev, map_map. simpl.
      by rewrite <- !app_assoc.
Qed.

Lemma initializeQueue_some_walk (fuel : nat) (dependencyTree : tree)
    (q : list (list string)) :
  initializeQueueWithNestedDeps fuel dependencyTree = Some q →
  q = walk dependencyTree [].
Proof.
  intros Hq. unfold initializeQueueWithNestedDeps in Hq.
  apply (initializeQueue_loop_mono _ (max fuel (tsize dependencyTree))) in Hq;
    [|lia].
  rewrite initializeQueue_loop_walk in Hq.
  - injection Hq as <-. simpl. by rewrite app_nil_r.
  - unfold stack_size. simpl. lia.
Qed.

(** X5.  With fuel for every node of the tree, the stack-driven loop of
    [initializeQueueWithNestedDeps] returns the queue given by recursion
    on the tree: the paths to the children of a node, followed by the
    queues of the children taken from the last child to the first. *)
Theorem initializeQueue_is_walk (fuel : nat) (dependencyTree : tree) :
  tsize dependencyTree ≤ fuel →
  initializeQueueWithNestedDeps fuel dependencyTree
  = Some (walk dependencyTree []).
Proof.
  intros Hle. unfold initializeQueueWithNestedDeps.
  rewrite initializeQueue_loop_walk.
  - simpl. by rewrite app_nil_r.
  - unfold stack_size. simpl. lia.
Qed.

Lemma initializeQueue_is_walk_witness :
  initializeQueueWithNestedDeps 7 example_tree
  = Some [["express"]; ["mocha"]; ["mocha"; "lodash"];
          ["mocha"; "lodash"; "minimist"];
          ["express"; "qs"]; ["express"; "minimist"]].
Proof.
  apply (initializeQueue_is_walk 7 example_tree). vm_compute. lia.
Defined.

Lemma length_concat_rev {A} (ls : list (list A)) :
  length (concat (rev ls)) = list_sum (map length ls).
Proof.
  induction ls as [|l ls IH]; simpl; [done|].
  rewrite concat_app, length_app, IH. simpl. rewrite app_nil_r. lia.
Qed.

Lemma walk_length (t : tree) (path : list string) :
  S (length (walk t path)) = tsize t.
Proof.
  revert path. induction t as [|l IH] using tree_ind; intros path; [done|].
  simpl. f_equal. rewrite length_app, length_map, length_concat_rev, map_map.
  induction IH as [|[k c] l Hc _ IHl]; simpl; [done|].
  simpl in Hc. rewrite <- (Hc (path ++ [k])). lia.
Qed.

Lemma walk_extends (t : tree) (path p : list string) :
  In p (walk t path) → ∃ q, p = path ++ q ∧ q ≠ [].
Proof.
  revert path p. induction t as [|l IH] using tree_ind; intros path p; [done|].
  simpl. rewrite in_app_iff, in_concat. intros [Hp|(ps & Hps & Hp)].
  - apply in_map_iff in Hp as (e & <- & _). by exists [e.1].
  - apply in_rev, in_map_iff in Hps as (e & <- & He).
    rewrite List.Forall_forall in IH.
    destruct (IH e He _ _ Hp) as (q & -> & _).
    exists (e.1 :: q). split; [by rewrite <- app_assoc|done].
Qed.

(** X6.  The queue returned by [initializeQueueWithNestedDeps] has one
    path for every node of the tree other than the root, and none of
    its paths is empty. *)
Theorem seed_queue_size (fuel : nat) (dependencyTree : tree)
    (q : list (list string)) :
  initializeQueueWithNestedDeps fuel dependencyTree = Some q →
  S (length q) = tsize dependencyTree ∧ ∀ p, p ∈ q → p ≠ [].
Proof.
  intros Hq. apply initializeQueue_some_walk in Hq as ->.
  split; [apply walk_length|].
  intros p Hp. apply list_elem_of_In, walk_extends in Hp as (q & -> & Hq).
  done.
Qed.

Lemma seed_queue_size_witness :
  ∃ q, initializeQueueWithNestedDeps 7 example_tree = Some q
       ∧ S (length q) = tsize example_tree.
Proof.
  destruct (initializeQueueWithNestedDeps 7 example_tree) as [q|] eqn:Hq;
    [|by vm_compute in Hq].
  exists q. split; [done|].
  exact (proj1 (seed_queue_size 7 example_tree q Hq)).
Defined.

Lemma get_In {A} (l : list (string * A)) (k : string) (v : A) :
  JS.get l k = Some v → In (k, v) l.
Proof.
  induction l as [|[k' v'] l IH]; simpl; [done|].
  destruct (String.eqb k k') eqn:E.
  - apply String.eqb_eq in E as ->. intros [= ->]. by left.
  - intros H. right. by apply IH.
Qed.

Lemma get_NoDup {A} (l : list (string * A)) (k : string) (v : A) :
  NoDup (map fst l) → In (k, v) l → JS.get l k = Some v.
Proof.
  induction l as [|[k' v'] l IH]; simpl; [done|].
  intros Hnd [[= -> ->]|Hin].
  - by rewrite String.eqb_refl.
  - apply NoDup_cons in Hnd as [Hnotin Hnd].
    destruct (String.eqb k k') eqn:E; [|by apply IH].
    apply String.eqb_eq in E as ->. destruct Hnotin.
    apply list_elem_of_In, in_map_iff. by exists (k', v).
Qed.

Lemma resolves_in_walk (t : tree) (q : list string) (n : tree)
    (path : list string) :
  resolves t q n → q ≠ [] → In (path ++ q) (walk t path).
Proof.
  intros Hres. revert path.
  induction Hres as [t|t d dep child p n Hd Hget Hres IH]; intros path Hq;
    [done|].
  destruct t as [[l|]]; simpl in Hd; [|done]. injection Hd as ->.
  apply get_In in Hget. simpl. apply in_app_iff.
  destruct p as [|dep' p].
  - left. apply in_map_iff. by exists (dep, child).
  - right. apply in_concat. exists (walk child (path ++ [dep])). split.
    + apply in_rev. rewrite rev_involutive. apply in_map_iff.
      by exists (dep, child).
    + specialize (IH (path ++ [dep])). rewrite <- app_assoc in IH.
      by apply IH.
Qed.

Lemma walk_resolves (t : tree) (path p : list string) :
  tree_wf t = true → In p (walk t path) →
  ∃ q n, p = path ++ q ∧ q ≠ [] ∧ resolves t q n.
Proof.
  revert path p. induction t as [|l IH] using tree_ind; intros path p Hwf;
    [done|].
  simpl in Hwf. apply andb_true_iff in Hwf as [Hnd Hwf].
  apply bool_decide_eq_true in Hnd. rewrite forallb_forall in Hwf.
  rewrite List.Forall_forall in IH.
  simpl. rewrite in_app_iff, in_concat. intros [Hp|(ps & Hps & Hp)].
  - apply in_map_iff in Hp as ([k c] & <- & He).
    exists [k], c. split; [done|]. split; [done|].
    econstructor; [done|by apply get_NoDup|constructor].
  - apply in_rev, in_map_iff in Hps as ([k c] & <- & He).
    destruct (IH _ He (path ++ [k]) p (Hwf _ He) Hp) as (q & n & -> & _ & Hres).
    exists (k :: q), n. split; [by rewrite <- app_assoc|]. split; [done|].
    econstructor; [done|by apply get_NoDup|done].
Qed.

(** X7.  For a tree whose objects have distinct keys, the queue
    returned by [initializeQueueWithNestedDeps] holds exactly the
    non-empty paths that resolve to a node. *)
Theorem seed_queue_paths (fuel : nat) (dependencyTree : tree)
    (q : list (list string)) (p : list string) :
  tree_wf dependencyTree = true →
  initializeQueueWithNestedDeps fuel dependencyTree = Some q →
  p ∈ q ↔ p ≠ [] ∧ ∃ n, resolves dependencyTree p n.
Proof.
  intros Hwf Hq. apply initializeQueue_some_walk in Hq as ->.
  rewrite list_elem_of_In. split.
  - intros Hp. destruct (walk_resolves _ _ _ Hwf Hp) as (q & n & -> & Hq & Hres).
    split; [done|]. by exists n.
  - intros [Hp [n Hres]]. by apply (resolves_in_walk _ _ _ [] Hres).
Qed.

Lemma seed_queue_paths_witness :
  ∃ q, initializeQueueWithNestedDeps 7 example_tree = Some q
       ∧ (["mocha"; "lodash"] ∈ q
          ↔ ["mocha"; "lodash"] ≠ []
            ∧ ∃ n, resolves example_tree ["mocha"; "lodash"] n).
Proof.
  destruct (initializeQueueWithNestedDeps 7 example_tree) as [q|] eqn:Hq;
    [|by vm_compute in Hq].
  exists q. split; [done|].
  apply (seed_queue_paths 7 example_tree q ["mocha"; "lodash"]);
    [reflexivity|done].
Defined.

(** ** Traversal engine: invariants of the main loop *)

Lemma total_exposure_bump (m : gmap string exposure) (n : string) (c : nat) :
  m !! n = None ∧ c = 0 ∨ m !! n = Some (Count c) →
  total_exposure (<[n := Count (c + 1)]> m) = S (total_exposure m).
Proof.
  unfold total_exposure.
  assert (∀ (j1 j2 : string) (z1 z2 : exposure) (y : nat),
            count_of z1 + (count_of z2 + y) = count_of z2 + (count_of z1 + y))
    as Hcomm by (intros; lia).
  intros [[Hn ->]|Hn].
  - rewrite map_fold_insert_L; [simpl; lia|by intros; apply Hcomm|done].
  - rewrite (map_fold_delete_L _ _ n (Count c) m);
      [|by intros; apply Hcomm|done].
    rewrite <- (insert_delete_eq m).
    rewrite map_fold_insert_L;
      [simpl; lia|by intros; apply Hcomm|by rewrite lookup_delete_eq].
Qed.

(** ** Properties and assignments of [report.dependencies] *)

Lemma eqb_proto_false (k : string) :
  k ≠ "__proto__" → String.eqb k "__proto__" = false.
Proof. intros Hk. by apply String.eqb_neq. Qed.

Lemma lookup_assign_record_eq (o : dependencies_object) (k : string)
    (r : DependencyRecord) :
  k ≠ "__proto__" → assign_record o k r !! k = Some r.
Proof.
  intros Hk. unfold assign_record. rewrite (eqb_proto_false k Hk).
  unfold lookup, dependencies_object_lookup. simpl. apply lookup_insert_eq.
Qed.

Lemma lookup_assign_record_ne (o : dependencies_object) (k n : string)
    (r : DependencyRecord) :
  k ≠ n → assign_record o k r !! n = o !! n.
Proof.
  intros Hk. unfold assign_record.
  destruct (String.eqb k "__proto__"); [done|].
  unfold lookup, dependencies_object_lookup. simpl.
  by apply lookup_insert_ne.
Qed.

Lemma lookup_assign_record_proto (o : dependencies_object) (n : string)
    (r : DependencyRecord) :
  assign_record o "__proto__" r !! n = o !! n.
Proof. done. Qed.

Lemma lookup_assign_record_Some (o : dependencies_object) (k n : string)
    (r r' : DependencyRecord) :
  assign_record o k r !! n = Some r' →
  (k = n ∧ k ≠ "__proto__" ∧ r' = r) ∨ o !! n = Some r'.
Proof.
  destruct (decide (k = n)) as [<-|Hkn].
  - destruct (decide (k = "__proto__")) as [->|Hk].
    + rewrite lookup_assign_record_proto. by right.
    + rewrite lookup_assign_record_eq by done. intros [= <-]. by left.
  - rewrite lookup_assign_record_ne by done. by right.
Qed.

Lemma prototype_assign_record (o : dependencies_object) (k : string)
    (r : DependencyRecord) :
  prototype_record (assign_record o k r)
  = if String.eqb k "__proto__" then Some r else prototype_record o.
Proof. unfold assign_record. by destruct (String.eqb k "__proto__"). Qed.

Lemma recorded_assign_eq (o : dependencies_object) (k : string)
    (r : DependencyRecord) :
  recorded (assign_record o k r) k.
Proof.
  unfold recorded. destruct (String.eqb k "__proto__") eqn:E.
  - rewrite prototype_assign_record, E. by eexists.
  - apply String.eqb_neq in E. rewrite lookup_assign_record_eq by done.
    by eexists.
Qed.

Lemma recorded_assign_ne (o : dependencies_object) (k n : string)
    (r : DependencyRecord) :
  k ≠ n → recorded (assign_record o k r) n ↔ recorded o n.
Proof.
  intros Hkn. unfold recorded. destruct (String.eqb n "__proto__") eqn:E.
  - apply String.eqb_eq in E as ->.
    by rewrite prototype_assign_record, (eqb_proto_false k Hkn).
  - by rewrite lookup_assign_record_ne.
Qed.

Lemma dependencies_lookup_empty (k : string) :
  (∅ : dependencies_object) !! k = None.
Proof. unfold lookup, dependencies_object_lookup. apply lookup_empty. Qed.

Lemma recorded_empty (k : string) : ¬ recorded ∅ k.
Proof.
  unfold recorded. destruct (String.eqb k "__proto__"); intros [r Hr];
    [done|]. by rewrite dependencies_lookup_empty in Hr.
Qed.

Lemma recorded_own (o : dependencies_object) (k : string) :
  is_Some (o !! k) → k ≠ "__proto__" → recorded o k.
Proof. intros Hk Hne. unfold recorded. by rewrite eqb_proto_false. Qed.

Lemma append_nonempty (t u : string) : u ≠ "" → t +:+ u ≠ "".
Proof. intros Hu. destruct t; simpl; [done|discriminate]. Qed.

Lemma findChildren_from_names (node : tree) (p : list string) (c : string) :
  In c (findChildren_from node p) → In c (tree_names node).
Proof.
  revert node. induction p as [|dep p IH]; intros node; simpl.
  - destruct node as [[l|]]; simpl; [|done]. intros Hc.
    apply in_app_iff. by left.
  - destruct node as [[l|]]; simpl; [|done].
    destruct (JS.get l dep) as [child|] eqn:Hget; [|done].
    intros Hc. apply in_app_iff. right. apply in_concat.
    exists (tree_names child). split; [|by apply IH].
    apply in_map_iff. exists (dep, child). split; [done|by apply get_In].
Qed.

Lemma findChildren_from_resolves_child (node : tree) (p : list string)
    (c : string) :
  In c (findChildren_from node p) → ∃ n, resolves node (p ++ [c]) n.
Proof.
  revert node. induction p as [|dep p IH]; intros node; simpl.
  - intros Hc. destruct node as [[l|]]; simpl in Hc; [|done].
    destruct (get_of_key l c Hc) as [child Hchild].
    exists child. econstructor; [done|done|constructor].
  - destruct (dependencies node) as [d|] eqn:Hd; [|done].
    destruct (JS.get d dep) as [child|] eqn:Hget; [|done].
    intros Hc. destruct (IH child Hc) as [n Hn].
    exists n. by econstructor.
Qed.

Lemma walk_names (t : tree) (path p : list string) (k : string) :
  In p (walk t path) → last p = Some k → In k (tree_names t).
Proof.
  revert path p. induction t as [|l IH] using tree_ind; intros path p; [done|].
  rewrite List.Forall_forall in IH.
  simpl. rewrite !in_app_iff, !in_concat. intros [Hp|(ps & Hps & Hp)] Hlast.
  - apply in_map_iff in Hp as (e & <- & He). rewrite last_snoc in Hlast.
    injection Hlast as <-. left. apply in_map_iff. by exists e.
  - apply in_rev, in_map_iff in Hps as (e & <- & He).
    right. exists (tree_names e.2). split; [|by eapply (IH e He)].
    apply in_map_iff. by exists e.
Qed.

Lemma names_in_walk (t : tree) (path : list string) (k : string) :
  In k (tree_names t) → ∃ p, In p (walk t path) ∧ last p = Some k.
Proof.
  revert path. induction t as [|l IH] using tree_ind; intros path; [done|].
  rewrite List.Forall_forall in IH.
  simpl. rewrite in_app_iff, in_concat. intros [Hk|(ns & Hns & Hk)].
  - apply in_map_iff in Hk as (e & <- & He).
    exists (path ++ [e.1]). split; [|by rewrite last_snoc].
    apply in_app_iff. left. apply in_map_iff. by exists e.
  - apply in_map_iff in Hns as (e & <- & He).
    destruct (IH e He (path ++ [e.1]) Hk) as (p & Hp & Hlast).
    exists p. split; [|done]. apply in_app_iff. right.
    apply in_concat. exists (walk e.2 (path ++ [e.1])). split; [|done].
    apply in_rev. rewrite rev_involutive. apply in_map_iff. by exists e.
Qed.

Section Invariants.

Context (dependencyTree : tree).
Context (devDependencies withinProjectDependencies laggingDependencies
           vulnerabilities : list string).
Context (vulnerabilitiesData : list finding).
Context (releaseIntervals : gmap string Q).

Local Abbreviation classify' :=
  (classify devDependencies withinProjectDependencies laggingDependencies
     vulnerabilities vulnerabilitiesData releaseIntervals).
Local Abbreviation iteration' :=
  (iteration dependencyTree devDependencies withinProjectDependencies
     laggingDependencies vulnerabilities vulnerabilitiesData releaseIntervals).
Local Abbreviation traverse' :=
  (traverse dependencyTree devDependencies withinProjectDependencies
     laggingDependencies vulnerabilities vulnerabilitiesData releaseIntervals).

Local Abbreviation records_classified' :=
  (records_classified devDependencies withinProjectDependencies
     laggingDependencies vulnerabilities vulnerabilitiesData releaseIntervals).
Local Abbreviation exposure_consistent' :=
  (exposure_consistent devDependencies withinProjectDependencies
     laggingDependencies vulnerabilities vulnerabilitiesData releaseIntervals).
Local Abbreviation names_covered' := (names_covered dependencyTree).
Local Abbreviation paths_from_tree' :=
  (paths_from_tree dependencyTree devDependencies withinProjectDependencies
     laggingDependencies vulnerabilities vulnerabilitiesData releaseIntervals).

(** A property kept by every iteration holds when the loop stops. *)
Lemma traverse_invariant (P : state → Prop) :
  (∀ p rest s, queue s = p :: rest → P s → P (iteration' p rest s)) →
  ∀ fuel s s', P s → traverse' fuel s = Some s' → P s' ∧ queue s' = [].
Proof.
  intros Hstep. induction fuel as [|fuel IH]; intros s s' HP Hrun; simpl in Hrun.
  - destruct (queue s) eqn:Hq; [|done]. by injection Hrun as <-.
  - destruct (queue s) as [|p rest] eqn:Hq.
    + by injection Hrun as <-.
    + apply (IH (iteration' p rest s)); [by apply Hstep|done].
Qed.

(** The four outcomes of an iteration. *)
Lemma iteration_cases (p : list string) (rest : list (list string))
    (s : state) :
  ((last p = None ∨ last p = Some "")
   ∧ iteration' p rest s
     = {| queue := rest; report_paths := report_paths s;
          report_dependencies := report_dependencies s;
          vulnerabilityExposure := vulnerabilityExposure s;
          foundVulnerableDeps := foundVulnerableDeps s |})
  ∨ ∃ n, last p = Some n ∧ n ≠ ""
    ∧ ((VULNERABLE ∈ dependencyTypes (classify' n)
        ∧ iteration' p rest s
          = {| queue := rest;
               report_paths :=
                 report_paths s ++ [simplifyPath p withinProjectDependencies];
               report_dependencies :=
                 assign_record (report_dependencies s) n (classify' n);
               vulnerabilityExposure :=
                 assign_exposure (vulnerabilityExposure s) n
                   (exposure_plus_one (vulnerabilityExposure s !! n) n);
               foundVulnerableDeps := {[n]} ∪ foundVulnerableDeps s |})
       ∨ ((VULNERABLE ∉ dependencyTypes (classify' n))
          ∧ ∃ added, (added = [] ∨ added = expand dependencyTree
                                             (foundVulnerableDeps s) p)
            ∧ iteration' p rest s
              = {| queue := rest ++ added;
                   report_paths := report_paths s;
                   report_dependencies :=
                     assign_record (report_dependencies s) n (classify' n);
                   vulnerabilityExposure := vulnerabilityExposure s;
                   foundVulnerableDeps := foundVulnerableDeps s |})).
Proof.
  unfold iteration. destruct (last p) as [n|]; [|left; by split; [left|]].
  destruct (String.eqb n "") eqn:E.
  - apply String.eqb_eq in E as ->. left. by split; [right|].
  - apply String.eqb_neq in E. right. exists n. split; [done|]. split; [done|].
    destruct (decide (VULNERABLE ∈ dependencyTypes (classify' n))) as [Hv|Hv].
    + left. by rewrite bool_decide_eq_true_2.
    + right. split; [done|]. rewrite bool_decide_eq_false_2 by done.
      destruct (bool_decide (DEVELOPMENT_ONLY ∉ _)).
      * eexists. split; [by right|done].
      * exists []. split; [by left|]. by rewrite app_nil_r.
Qed.

Lemma records_classified_assign (o : dependencies_object) (n : string) :
  n ≠ "" →
  ((∀ k r, o !! k = Some r → r = classify' k ∧ k ≠ "" ∧ k ≠ "__proto__")
   ∧ (∀ r, prototype_record o = Some r → r = classify' "__proto__")) →
  (∀ k r, assign_record o n (classify' n) !! k = Some r →
          r = classify' k ∧ k ≠ "" ∧ k ≠ "__proto__")
  ∧ (∀ r, prototype_record (assign_record o n (classify' n)) = Some r →
          r = classify' "__proto__").
Proof.
  intros Hne [Hown Hproto]. split.
  - intros k r Hk.
    apply lookup_assign_record_Some in Hk as [(<- & Hn & ->)|Hk];
      [done|by apply Hown].
  - intros r. rewrite prototype_assign_record.
    destruct (String.eqb n "__proto__") eqn:E; [|apply Hproto].
    apply String.eqb_eq in E as ->. by intros [= <-].
Qed.

Lemma records_classified_step (p : list string) (rest : list (list string))
    (s : state) :
  records_classified' s → records_classified' (iteration' p rest s).
Proof.
  intros Hinv.
  destruct (iteration_cases p rest s)
    as [[_ ->]|(n & _ & Hne & [[_ ->]|(_ & added & _ & ->)])];
    [done| |]; by apply records_classified_assign.
Qed.

(** The value stored for a vulnerable name has the shape of the values
    before it. *)
Lemma exposure_plus_one_shape (own : option exposure) (n : string) :
  (∀ e, own = Some e →
        if JS.inherited n then ∃ t, e = Text t ∧ t ≠ ""
        else ∃ c, e = Count c ∧ 1 ≤ c) →
  if JS.inherited n then ∃ t, exposure_plus_one own n = Text t ∧ t ≠ ""
  else ∃ c, exposure_plus_one own n = Count c ∧ 1 ≤ c.
Proof.
  intros Hown. unfold exposure_plus_one.
  destruct own as [e|].
  - specialize (Hown e eq_refl). destruct (JS.inherited n).
    + destruct Hown as (t & -> & Ht).
      apply String.eqb_neq in Ht as Ht'. rewrite Ht'.
      eexists. split; [done|]. by apply append_nonempty.
    + destruct Hown as (c & -> & Hc). eexists. split; [done|lia].
  - destruct (JS.inherited n).
    + eexists. split; [done|]. by apply append_nonempty.
    + by exists 1.
Qed.

Lemma exposure_consistent_step (p : list string) (rest : list (list string))
    (s : state) :
  exposure_consistent' s → exposure_consistent' (iteration' p rest s).
Proof.
  intros (Hdom & Hcount & Hlen).
  destruct (iteration_cases p rest s)
    as [[_ ->]|(n & _ & Hne & [[Hv ->]|(Hv & added & _ & ->)])];
    unfold exposure_consistent; simpl.
  - done.
  - assert (∀ e, vulnerabilityExposure s !! n = Some e →
                 if JS.inherited n then ∃ t, e = Text t ∧ t ≠ ""
                 else ∃ c, e = Count c ∧ 1 ≤ c) as Hold.
    { intros e He. by destruct (Hcount n e He) as (_ & _ & ?). }
    pose proof (exposure_plus_one_shape _ n Hold) as Hnew.
    unfold assign_exposure.
    destruct (String.eqb n "__proto__") eqn:E.
    + apply String.eqb_eq in E as ->. split; [|split].
      * intros k. rewrite Hdom, !elem_of_union, !elem_of_singleton.
        split; [intros [? ?]; split; [by right|done]|].
        intros [[->| ?] ?]; [done|by split].
      * intros k e Hk. destruct (Hcount k e Hk) as (Hvk & Hrec & Hshape).
        split; [done|]. split; [|done].
        by rewrite lookup_assign_record_proto.
      * intros Hno. by destruct (Hno "__proto__").
    + apply String.eqb_neq in E. split; [|split].
      * intros k. rewrite dom_insert_L, !elem_of_union, !elem_of_singleton.
        rewrite Hdom. split.
        -- intros [->|[? ?]]; (split; [by (left + right)|done]).
        -- intros [[->| ?] ?]; [by left|by right].
      * intros k e. destruct (decide (n = k)) as [<-|Hnk].
        -- rewrite lookup_insert_eq. intros [= <-]. split; [done|].
           split; [by apply lookup_assign_record_eq|done].
        -- rewrite lookup_insert_ne by done. intros Hk.
           destruct (Hcount k e Hk) as (Hvk & Hrec & Hshape).
           split; [done|]. split; [|done].
           by rewrite lookup_assign_record_ne.
      * intros Hno. rewrite length_app, (Hlen Hno). simpl.
        destruct (JS.inherited n) eqn:Hin; [by destruct (Hno n)|].
        destruct Hnew as (c' & Hc' & _).
        unfold exposure_plus_one in *.
        destruct (vulnerabilityExposure s !! n) as [e|] eqn:Hn.
        -- destruct (Hold e eq_refl) as (c & -> & Hc).
           rewrite total_exposure_bump by (by right). lia.
        -- rewrite Hin. change (Count 1) with (Count (0 + 1)).
           rewrite total_exposure_bump by (by left). lia.
  - split; [done|]. split; [|done].
    intros k e Hk. destruct (Hcount k e Hk) as (Hvk & Hrec & Hshape).
    split; [done|]. split; [|done].
    destruct (decide (n = k)) as [<-|Hnk].
    + apply lookup_assign_record_eq. intros ->.
      assert ("__proto__" ∈ dom (vulnerabilityExposure s)) as Hd
        by (apply elem_of_dom; by eexists).
      apply Hdom in Hd. by destruct Hd.
    + by rewrite lookup_assign_record_ne.
Qed.

Lemma expand_names (found : gset string) (p q : list string) (k : string) :
  q ∈ expand dependencyTree found p → last q = Some k →
  In k (tree_names dependencyTree).
Proof.
  unfold expand. intros Hq Hlast.
  apply list_elem_of_In, in_map_iff in Hq as (c & <- & Hc).
  rewrite last_snoc in Hlast. injection Hlast as <-.
  apply list_elem_of_In, list_elem_of_filter in Hc as [_ Hc].
  apply list_elem_of_In in Hc. by apply findChildren_from_names in Hc.
Qed.

Lemma names_covered_step (p : list string) (rest : list (list string))
    (s : state) :
  queue s = p :: rest → names_covered' s → names_covered' (iteration' p rest s).
Proof.
  intros Hq (Hall & Hrec & Hqueue). rewrite Hq in Hall, Hqueue.
  assert (∀ q k, q ∈ rest → last q = Some k →
                 In k (tree_names dependencyTree)) as Hrest.
  { intros q k Hin. apply Hqueue. by apply elem_of_cons; right. }
  destruct (iteration_cases p rest s)
    as [[Hskip ->]|(n & Hlast & Hne & Hcase)]; simpl.
  - split; [|split; [done|done]].
    intros k Hk Hkne. destruct (Hall k Hk Hkne) as [?|(q & Hin & Hlq)];
      [by left|]. right. exists q. split; [|done].
    apply elem_of_cons in Hin as [->|Hin]; [|done].
    destruct Hskip as [E|E]; rewrite E in Hlq; [done|].
    by injection Hlq as <-.
  - assert (In n (tree_names dependencyTree)) as Hn.
    { apply (Hqueue p); [by apply elem_of_cons; left|done]. }
    assert (∀ added,
      (∀ q k, q ∈ added → last q = Some k → In k (tree_names dependencyTree)) →
      names_covered'
        {| queue := rest ++ added;
           report_paths := report_paths (iteration' p rest s);
           report_dependencies :=
             assign_record (report_dependencies s) n (classify' n);
           vulnerabilityExposure := vulnerabilityExposure (iteration' p rest s);
           foundVulnerableDeps := foundVulnerableDeps (iteration' p rest s) |})
      as Hgen.
    { intros added Hadded. split; [|split]; simpl.
      - intros k Hk Hkne. destruct (decide (n = k)) as [<-|Hkn].
        + left. apply recorded_assign_eq.
        + destruct (Hall k Hk Hkne) as [Hsome|(q & Hin & Hlq)].
          * left. by apply recorded_assign_ne.
          * right. exists q. split; [|done].
            apply elem_of_cons in Hin as [->|Hin];
              [congruence|by apply elem_of_app; left].
      - intros k. destruct (decide (n = k)) as [<-|Hkn]; [done|].
        rewrite recorded_assign_ne by done. apply Hrec.
      - intros q k Hin. apply elem_of_app in Hin as [Hin|Hin];
          [by apply Hrest|by apply Hadded]. }
    destruct Hcase as [[_ E]|(_ & added & Hadded & E)].
    + specialize (Hgen []). rewrite app_nil_r in Hgen.
      destruct Hgen as (H1 & H2 & H3).
      { intros q k Hin. by apply elem_of_nil in Hin. }
      rewrite E. by split; [|split].
    + destruct (Hgen added) as (H1 & H2 & H3).
      { destruct Hadded as [->| ->].
        - intros q k Hin. by apply elem_of_nil in Hin.
        - intros q k. apply expand_names. }
      rewrite E. by split; [|split].
Qed.

Lemma paths_from_tree_step (p : list string) (rest : list (list string))
    (s : state) :
  queue s = p :: rest → paths_from_tree' s → paths_from_tree' (iteration' p rest s).
Proof.
  intros Hq (Hqueue & Hpaths). rewrite Hq in Hqueue.
  assert (∀ q, q ∈ rest → ∃ n, resolves dependencyTree q n) as Hrest.
  { intros q Hin. apply Hqueue. by apply elem_of_cons; right. }
  destruct (Hqueue p) as [np Hp]; [by apply elem_of_cons; left|].
  destruct (iteration_cases p rest s)
    as [[_ ->]|(n & Hlast & Hne & [[Hv ->]|(Hv & added & Hadded & ->)])]; simpl.
  - by split.
  - split; [done|]. intros q Hin. apply elem_of_app in Hin as [Hin|Hin];
      [by apply Hpaths|]. apply list_elem_of_singleton in Hin as ->.
    by exists p, n, np.
  - split; [|done]. intros q Hin. apply elem_of_app in Hin as [Hin|Hin];
      [by apply Hrest|].
    destruct Hadded as [->| ->]; [by apply elem_of_nil in Hin|].
    unfold expand in Hin.
    apply list_elem_of_In, in_map_iff in Hin as (c & <- & Hc).
    apply list_elem_of_In, list_elem_of_filter in Hc as [_ Hc].
    apply list_elem_of_In in Hc.
    by apply findChildren_from_resolves_child.
Qed.

End Invariants.

(** ** The report of a run *)

Lemma run_traversal_invariant (P : state → Prop) (fuel : nat)
    (d : documents) (s : state) :
  P (initial_state (walk (step1_output d) [])) →
  (∀ p rest s0, queue s0 = p :: rest → P s0 →
     P (iteration (step1_output d) (JS.keys (step2_output d))
          (JS.array_keys (step3_output d))
          (JS.keys (laggingDependencies (step4_output d)))
          (map vulnerable_name (step5_output d)) (step5_output d)
          (releaseInterval (step4_output d)) p rest s0)) →
  run_traversal fuel d = Some s → P s ∧ queue s = [].
Proof.
  intros Hinit Hstep Hrun. unfold run_traversal in Hrun.
  destruct (initializeQueueWithNestedDeps fuel (step1_output d)) as [q|] eqn:Hq;
    [|done].
  apply initializeQueue_some_walk in Hq as ->. simpl in Hrun.
  by eapply traverse_invariant.
Qed.

Lemma step6_constructPath_inv (fuel : nat) (d : documents) (r : report) :
  step6_constructPath fuel d = Some r →
  ∃ s, run_traversal fuel d = Some s
       ∧ paths r = JS.sort (comparePaths (report_dependencies s)) (report_paths s)
       ∧ dependencies_of r = report_dependencies s
       ∧ exposure_of r = vulnerabilityExposure s.
Proof.
  unfold step6_constructPath.
  destruct (run_traversal fuel d) as [s|]; [|done].
  intros [= <-]. by exists s.
Qed.

(** The invariants of the main loop hold in the state the traversal
    ends in. *)
Lemma run_state_invariants (fuel : nat) (d : documents) (s : state) :
  run_traversal fuel d = Some s →
  queue s = []
  ∧ names_covered (step1_output d) s
  ∧ records_classified (JS.keys (step2_output d))
      (JS.array_keys (step3_output d))
      (JS.keys (laggingDependencies (step4_output d)))
      (map vulnerable_name (step5_output d)) (step5_output d)
      (releaseInterval (step4_output d)) s
  ∧ exposure_consistent (JS.keys (step2_output d))
      (JS.array_keys (step3_output d))
      (JS.keys (laggingDependencies (step4_output d)))
      (map vulnerable_name (step5_output d)) (step5_output d)
      (releaseInterval (step4_output d)) s.
Proof.
  intros Hs.
  destruct (run_traversal_invariant
              (λ s, names_covered (step1_output d) s
                    ∧ records_classified (JS.keys (step2_output d))
                        (JS.array_keys (step3_output d))
                        (JS.keys (laggingDependencies (step4_output d)))
                        (map vulnerable_name (step5_output d)) (step5_output d)
                        (releaseInterval (step4_output d)) s
                    ∧ exposure_consistent (JS.keys (step2_output d))
                        (JS.array_keys (step3_output d))
                        (JS.keys (laggingDependencies (step4_output d)))
                        (map vulnerable_name (step5_output d)) (step5_output d)
                        (releaseInterval (step4_output d)) s)
              fuel d s) as [(Hn & Hc & He) Hempty];
    [| |exact Hs|exact (conj Hempty (conj Hn (conj Hc He)))].
  - split; [|split].
    + split; [|split]; simpl.
      * intros k Hk _. right.
        destruct (names_in_walk _ [] k Hk) as (p & Hp & Hlast).
        exists p. by rewrite list_elem_of_In.
      * intros k Hk. by apply recorded_empty in Hk.
      * intros p k Hp. apply list_elem_of_In in Hp. by apply (walk_names _ []).
    + split; simpl; [|done].
      intros n rec Hn. by rewrite dependencies_lookup_empty in Hn.
    + unfold exposure_consistent. simpl. split; [|split].
      * intros n. rewrite dom_empty_L. split; [done|by intros [? _]].
      * intros n c Hn. by rewrite lookup_empty in Hn.
      * intros _. unfold total_exposure. by rewrite map_fold_empty.
  - intros p rest s0 Hq (Hn & Hc & He). split; [|split].
    + by apply names_covered_step.
    + by apply records_classified_step.
    + by apply exposure_consistent_step.
Qed.

Lemma report_record_classified (fuel : nat) (d : documents) (r : report)
    (n : string) (rec : DependencyRecord) :
  step6_constructPath fuel d = Some r →
  dependencies_of r !! n = Some rec → rec = classify_in d n.
Proof.
  intros Hr Hn. apply step6_constructPath_inv in Hr as (s & Hs & _ & Hd & _).
  rewrite Hd in Hn.
  destruct (run_state_invariants fuel d s Hs) as (_ & _ & [Hcls _] & _).
  by destruct (Hcls n rec Hn).
Qed.

(** X8.  In the report object that the traversal builds, the own
    records are those of exactly the non-empty names other than
    [__proto__] that occur in the tree, at any depth and also below
    development-only or vulnerable nodes; each record is the
    classification of its name, however many paths reached it; and the
    record of [__proto__] is no property: it is the prototype of
    [report.dependencies] when the tree has that name, and otherwise
    the prototype is left alone. *)
Theorem report_records (fuel : nat) (d : documents) (r : report) :
  step6_constructPath fuel d = Some r →
  (∀ n, is_Some (dependencies_of r !! n)
        ↔ n ∈ tree_names (step1_output d) ∧ n ≠ "" ∧ n ≠ "__proto__")
  ∧ (∀ n rec, dependencies_of r !! n = Some rec → rec = classify_in d n)
  ∧ prototype_record (dependencies_of r)
    = if bool_decide ("__proto__" ∈ tree_names (step1_output d))
      then Some (classify_in d "__proto__") else None.
Proof.
  intros Hr. apply step6_constructPath_inv in Hr as (s & Hs & _ & -> & _).
  destruct (run_state_invariants fuel d s Hs)
    as (Hempty & (Hall & Hrec & _) & [Hcls Hproto] & _).
  rewrite Hempty in Hall. split; [|split].
  - intros n. split.
    + intros [rec Hn]. destruct (Hcls n rec Hn) as (_ & Hne & Hnp).
      split; [|done]. apply list_elem_of_In, Hrec, recorded_own; [|done].
      by exists rec.
    + intros (Hn & Hne & Hnp). apply list_elem_of_In in Hn.
      destruct (Hall n Hn Hne) as [Hsome|(p & Hp & _)];
        [|by apply elem_of_nil in Hp].
      unfold recorded in Hsome. by rewrite eqb_proto_false in Hsome.
  - intros n rec Hn. by destruct (Hcls n rec Hn).
  - case_bool_decide as Hin.
    + apply list_elem_of_In in Hin.
      destruct (Hall "__proto__" Hin) as [[rec Hsome]|(p & Hp & _)];
        [done| |by apply elem_of_nil in Hp].
      simpl in Hsome. rewrite Hsome. f_equal. by apply Hproto.
    + destruct (prototype_record (report_dependencies s)) as [rec|] eqn:E;
        [|done].
      destruct Hin. apply list_elem_of_In, Hrec. unfold recorded. simpl.
      by rewrite E.
Qed.

Lemma report_records_witness :
  ∃ r, step6_constructPath 40 example_documents = Some r
       ∧ is_Some (dependencies_of r !! "qs")
       ∧ dependencies_of r !! "left-pad" = None
       ∧ prototype_record (dependencies_of r) = None.
Proof.
  destruct (step6_constructPath 40 example_documents) as [r|] eqn:Hr;
    [|by vm_compute in Hr].
  exists r. split; [done|].
  destruct (report_records 40 example_documents r Hr) as (Hdom & _ & Hproto).
  split; [|split].
  - apply Hdom. split; [|done]. apply (bool_decide_unpack _). by vm_compute.
  - apply eq_None_not_Some. intros Hsome. apply Hdom in Hsome as [Hin _].
    revert Hin. apply (bool_decide_unpack _). by vm_compute.
  - rewrite Hproto. by vm_compute.
Defined.

Lemma classify_in_vulnerable (d : documents) (n : string) :
  VULNERABLE ∈ dependencyTypes (classify_in d n)
  ↔ n ∈ map vulnerable_name (step5_output d).
Proof.
  unfold classify_in, classify. rewrite classifyDependency_types.
  split; [|by intros; do 3 right].
  by intros [[? _]|[[? _]|[[? _]|[_ Hin]]]].
Qed.

Lemma report_exposure_counts (fuel : nat) (d : documents) (r : report) :
  step6_constructPath fuel d = Some r →
  (∀ n e, exposure_of r !! n = Some e →
     VULNERABLE ∈ dependencyTypes (classify_in d n))
  ∧ ((∀ n, n ∈ map vulnerable_name (step5_output d) →
           JS.inherited n = false) →
     length (paths r) = total_exposure (exposure_of r)).
Proof.
  intros Hr.
  apply step6_constructPath_inv in Hr as (s & Hs & -> & _ & ->).
  destruct (run_state_invariants fuel d s Hs) as (_ & _ & _ & _ & Hcount & Hlen).
  split.
  - intros n e Hn. by destruct (Hcount n e Hn) as (Hv & _).
  - intros Hno. rewrite <- Hlen.
    + apply Permutation_length.
      apply (sort_Permutation (pathScore (report_dependencies s))).
    + intros n Hin Hv. apply classify_in_vulnerable, Hno in Hv. congruence.
Qed.

(** X9.  In the report, every name with an exposure value has a record
    tagged vulnerable; the value is a count of at least one, unless the
    name is one that objects inherit from [Object.prototype], for which
    it is a non-empty string; and when no finding has such a name, the
    counts add up to the number of reported paths. *)
Theorem report_exposure (fuel : nat) (d : documents) (r : report) :
  step6_constructPath fuel d = Some r →
  (∀ n e, exposure_of r !! n = Some e →
     (if JS.inherited n then ∃ t, e = Text t ∧ t ≠ ""
      else ∃ c, e = Count c ∧ 1 ≤ c)
     ∧ ∃ rec, dependencies_of r !! n = Some rec
              ∧ VULNERABLE ∈ dependencyTypes rec)
  ∧ ((∀ n, n ∈ map vulnerable_name (step5_output d) →
           JS.inherited n = false) →
     length (paths r) = total_exposure (exposure_of r)).
Proof.
  intros Hr. split; [|by apply (report_exposure_counts fuel d)].
  apply step6_constructPath_inv in Hr as (s & Hs & _ & -> & ->).
  destruct (run_state_invariants fuel d s Hs) as (_ & _ & _ & _ & Hcount & _).
  intros n e Hn. destruct (Hcount n e Hn) as (Hv & Hrec & Hshape).
  split; [done|]. by eexists.
Qed.

Lemma report_exposure_witness :
  ∃ r, step6_constructPath 40 example_documents = Some r
       ∧ length (paths r) = total_exposure (exposure_of r).
Proof.
  destruct (step6_constructPath 40 example_documents) as [r|] eqn:Hr;
    [|by vm_compute in Hr].
  exists r. split; [done|].
  apply (proj2 (report_exposure 40 example_documents r Hr)).
  intros n Hn. apply list_elem_of_In in Hn.
  destruct Hn as [<-|[<-|[]]]; reflexivity.
Defined.

(** X10.  Without findings the report has no path and no exposure
    count, and every record has score [-1] and no vulnerable tag. *)
Theorem report_without_findings (fuel : nat) (d : documents) (r : report) :
  step5_output d = [] →
  step6_constructPath fuel d = Some r →
  paths r = [] ∧ exposure_of r = ∅
  ∧ ∀ n rec, dependencies_of r !! n = Some rec →
      highestCvssScore rec = (-1)%Q ∧ VULNERABLE ∉ dependencyTypes rec.
Proof.
  intros Hfs Hr.
  destruct (report_exposure_counts fuel d r Hr) as [Hcount Hlen].
  assert (∀ n, VULNERABLE ∉ dependencyTypes (classify_in d n)) as Hnone.
  { intros n. rewrite classify_in_vulnerable, Hfs. apply not_elem_of_nil. }
  assert (exposure_of r = ∅) as Hempty.
  { apply map_empty. intros n. apply eq_None_not_Some. intros [c Hn].
    by destruct (Hnone n (Hcount n c Hn)). }
  split; [|split; [done|]].
  - apply length_zero_iff_nil.
    rewrite Hlen, Hempty; [unfold total_exposure; by rewrite map_fold_empty|].
    rewrite Hfs. intros n Hin. by apply elem_of_nil in Hin.
  - intros n rec Hn. rewrite (report_record_classified fuel d r n rec Hr Hn).
    split; [|apply Hnone]. unfold classify_in, classify. by rewrite Hfs.
Qed.

Lemma report_without_findings_witness :
  ∃ r, step6_constructPath 40 (documents_of example_tree ["mocha"] []) = Some r
       ∧ paths r = [] ∧ exposure_of r = ∅.
Proof.
  destruct (step6_constructPath 40 (documents_of example_tree ["mocha"] []))
    as [r|] eqn:Hr; [|by vm_compute in Hr].
  exists r. split; [done|].
  destruct (report_without_findings 40
              (documents_of example_tree ["mocha"] []) r eq_refl Hr)
    as (H1 & H2 & _).
  by split.
Defined.

(** X11.  For a tree whose objects have distinct keys, every reported
    path is the simplification of a path that resolves to a node of the
    tree and whose last name is classified vulnerable. *)
Theorem reported_paths_from_tree (fuel : nat) (d : documents) (r : report)
    (q : list string) :
  tree_wf (step1_output d) = true →
  step6_constructPath fuel d = Some r →
  q ∈ paths r →
  ∃ p k n, q = simplifyPath p (JS.array_keys (step3_output d))
           ∧ last p = Some k
           ∧ VULNERABLE ∈ dependencyTypes (classify_in d k)
           ∧ resolves (step1_output d) p n.
Proof.
  intros Hwf Hr Hq.
  apply step6_constructPath_inv in Hr as (s & Hs & Hpaths & _ & _).
  rewrite Hpaths in Hq.
  rewrite (sort_Permutation (pathScore (report_dependencies s))) in Hq.
  destruct (run_traversal_invariant
              (paths_from_tree (step1_output d) (JS.keys (step2_output d))
                 (JS.array_keys (step3_output d))
                 (JS.keys (laggingDependencies (step4_output d)))
                 (map vulnerable_name (step5_output d)) (step5_output d)
                 (releaseInterval (step4_output d)))
              fuel d s) as [[_ Hfrom] _]; [| |exact Hs|].
  - split; simpl.
    + intros p Hp. apply list_elem_of_In in Hp.
      destruct (walk_resolves _ _ _ Hwf Hp) as (q' & n & -> & _ & Hres).
      by exists n.
    + intros q' Hq'. by apply elem_of_nil in Hq'.
  - intros p rest s0. apply paths_from_tree_step.
  - by apply Hfrom.
Qed.

Lemma reported_paths_from_tree_witness :
  ∃ r, step6_constructPath 40 example_documents = Some r
       ∧ ∃ p k n, ["express"; "minimist"]
                  = simplifyPath p (JS.array_keys (step3_output example_documents))
                  ∧ last p = Some k
                  ∧ VULNERABLE ∈ dependencyTypes (classify_in example_documents k)
                  ∧ resolves (step1_output example_documents) p n.
Proof.
  destruct (step6_constructPath 40 example_documents) as [r|] eqn:Hr;
    [|by vm_compute in Hr].
  exists r. split; [done|].
  apply (reported_paths_from_tree 40 example_documents r); [reflexivity|done|].
  assert (paths r = [["mocha"; "lodash"; "minimist"]; ["express"; "minimist"];
                     ["express"; "minimist"]; ["mocha"; "lodash"]]) as ->.
  { vm_compute in Hr. by injection Hr as <-. }
  apply elem_of_cons. right. apply elem_of_cons. by left.
Defined.

(** ** Classifier *)

(** X12.  The tags of a record are listed in the order development-only,
    within-project, lagging, vulnerable, each at most once; the tag
    [NORMAL] is never given. *)
Theorem classifyDependency_tags_ordered dependency dev wp lag vs fs
    (ri : gmap string Q) :
  let types := dependencyTypes (classifyDependency dependency dev wp lag vs fs ri) in
  types `sublist_of` [DEVELOPMENT_ONLY; WITHIN_PROJECT; LAGGING; VULNERABLE]
  ∧ NoDup types ∧ NORMAL ∉ types.
Proof.
  intros types.
  assert (types `sublist_of`
            [DEVELOPMENT_ONLY; WITHIN_PROJECT; LAGGING; VULNERABLE]) as Hsub.
  { subst types. unfold classifyDependency, push_if. simpl.
    destruct (JS.includes dev dependency), (JS.includes wp dependency),
             (JS.includes lag dependency), (JS.includes vs dependency);
      simpl; repeat constructor. }
  split; [exact Hsub|]. split.
  - eapply sublist_NoDup; [|exact Hsub].
    apply (bool_decide_unpack _). by vm_compute.
  - subst types. rewrite classifyDependency_types.
    intros [[? _]|[[? _]|[[? _]|[? _]]]]; discriminate.
Qed.

Lemma prefix_trans (a b c : string) :
  String.prefix a b = true → String.prefix b c = true →
  String.prefix a c = true.
Proof.
  revert b c. induction a as [|x a IH]; intros b c.
  - by destruct c.
  - destruct b as [|y b], c as [|z c]; simpl; try done.
    destruct (ascii_dec x y) as [->|]; [|done].
    destruct (ascii_dec y z) as [->|]; [|done].
    apply IH.
Qed.

(** X13.  When one package name is a prefix of another, every finding
    counted for the longer name is counted for the shorter one: the
    score of the shorter name is at least the score of the longer. *)
Theorem score_of_prefix_name (shorter longer : string) (fs : list finding) :
  JS.startsWith longer shorter = true →
  (getHighestCvssScoreForDependency longer fs
   <= getHighestCvssScoreForDependency shorter fs)%Q.
Proof.
  intros Hpre.
  destruct (getHighestCvssScore_bounds longer fs) as (_ & _ & Hatt).
  destruct (getHighestCvssScore_bounds shorter fs) as (Hlow & Hup & _).
  simpl in *. destruct Hatt as [->|(f & v & Hf & HP & Hv & ->)]; [done|].
  apply (Hup f v Hf); [|done].
  unfold JS.startsWith in *. by eapply prefix_trans.
Qed.

Lemma score_of_prefix_name_witness :
  let fs := [one_finding "ip-address:5.8.9" (Some 9%Q);
             one_finding "ip:1.1.5" (Some 4%Q)] in
  (getHighestCvssScoreForDependency "ip-address" fs
   <= getHighestCvssScoreForDependency "ip" fs)%Q
  ∧ getHighestCvssScoreForDependency "ip" fs = 9%Q.
Proof.
  intros fs. split; [|reflexivity].
  apply (score_of_prefix_name "ip" "ip-address" fs). reflexivity.
Defined.

Lemma replace_absent (s pat repl : string) :
  occurs pat s = false → JS.replace s pat repl = s.
Proof.
  induction s as [|c s IH]; simpl.
  - intros H. apply orb_false_iff in H as [Hp _]. by rewrite Hp.
  - intros H. apply orb_false_iff in H as [Hp Ho]. rewrite Hp.
    by rewrite IH.
Qed.

Lemma split_head_colon (n v : string) :
  occurs ":" n = false → JS.split_head (n +:+ String ":" v) ":" = n.
Proof.
  induction n as [|c n IH]; simpl; [done|].
  intros H. apply orb_false_iff in H as [Hp Ho].
  destruct (Ascii.eqb c ":") eqn:E.
  - apply Ascii.eqb_eq in E as ->. simpl in Hp. by destruct n.
  - by rewrite IH.
Qed.

Lemma prefix_append (n rest : string) : String.prefix n (n +:+ rest) = true.
Proof.
  induction n as [|c n IH]; simpl; [by destruct rest|].
  by destruct (ascii_dec c c).
Qed.

(** X14.  For a finding on the file [name:version], where [name] holds
    no [:], [.min] or [.js], the two matching rules agree: [name] is
    tagged vulnerable and its score is at least every score of the
    finding. *)
Theorem finding_on_plain_name (n v : string) (f : finding)
    dev wp lag (fs : list finding) (ri : gmap string Q) :
  occurs ":" n = false → occurs ".min" n = false → occurs ".js" n = false →
  f ∈ fs → fileName f = n +:+ String ":" v →
  let r := classifyDependency n dev wp lag (map vulnerable_name fs) fs ri in
  VULNERABLE ∈ dependencyTypes r
  ∧ ∀ e, e ∈ vulnerabilities f → (JS.toNumber (cvss e) <= highestCvssScore r)%Q.
Proof.
  intros Hcolon Hmin Hjs Hf Hname r. subst r. split.
  - apply classifyDependency_types. do 3 right. split; [done|].
    apply list_elem_of_In, in_map_iff. exists f.
    split; [|by apply list_elem_of_In].
    unfold vulnerable_name. rewrite Hname, split_head_colon by done.
    rewrite (replace_absent n ".min") by done.
    by rewrite (replace_absent n ".js").
  - intros e He. simpl.
    destruct (getHighestCvssScore_bounds n fs) as (_ & Hup & _).
    apply (Hup f e Hf); [|done].
    unfold JS.startsWith. rewrite Hname. apply prefix_append.
Qed.

Lemma finding_on_plain_name_witness :
  let f := one_finding "minimist:0.0.8" (Some (98 # 10)%Q) in
  let r := classifyDependency "minimist" [] [] []
             (map vulnerable_name [f]) [f] ∅ in
  VULNERABLE ∈ dependencyTypes r
  ∧ ∀ e, e ∈ vulnerabilities f → (JS.toNumber (cvss e) <= highestCvssScore r)%Q.
Proof.
  intros f.
  apply (finding_on_plain_name "minimist" "0.0.8" f [] [] [] [f] ∅);
    try reflexivity.
  apply list_elem_of_singleton. reflexivity.
Defined.

(** ** Step 5: from the scanner report to the findings *)

Lemma elem_of_parse (rep : list Owasp.dependency) (f : finding) :
  f ∈ parseVulnerableDependencies rep
  ↔ ∃ dep vs, dep ∈ rep ∧ Owasp.vulnerabilities dep = Some vs ∧ vs ≠ []
              ∧ f = {| fileName := Owasp.fileName dep;
                       filePath := Owasp.filePath dep;
                       vulnerabilities := map parse_vulnerability vs |}.
Proof.
  unfold parseVulnerableDependencies. rewrite list_elem_of_In, in_map_iff.
  split.
  - intros (dep & <- & Hdep).
    apply list_elem_of_In, list_elem_of_filter in Hdep as [Hhas Hdep].
    unfold has_vulnerabilities in Hhas.
    destruct (Owasp.vulnerabilities dep) as [vs|] eqn:Hvs; [|done].
    exists dep, vs. split; [done|]. split; [done|]. split; [|done].
    by destruct vs.
  - intros (dep & vs & Hdep & Hvs & Hne & ->). exists dep.
    rewrite Hvs. split; [done|].
    apply list_elem_of_In, list_elem_of_filter. split; [|done].
    unfold has_vulnerabilities. rewrite Hvs. by destruct vs.
Qed.

Lemma has_vulnerabilities_length (dep : Owasp.dependency) :
  has_vulnerabilities dep = true
  ↔ 0 < length (default [] (Owasp.vulnerabilities dep)).
Proof.
  unfold has_vulnerabilities.
  destruct (Owasp.vulnerabilities dep) as [vs|]; simpl.
  - apply Nat.ltb_lt.
  - split; [done|lia].
Qed.

(** X15.  The findings produced from the scanner report are those of
    exactly the scanned files that have at least one vulnerability: no
    finding is empty; a finding is produced exactly for such a file,
    with its name, its path and one entry per vulnerability; and the
    findings come one per such file, in the order of the report, so
    that no file with a vulnerability is left out or repeated. *)
Theorem parsed_findings_nonempty (rep : list Owasp.dependency) :
  (∀ f, f ∈ parseVulnerableDependencies rep → vulnerabilities f ≠ [])
  ∧ (∀ f, f ∈ parseVulnerableDependencies rep
          ↔ ∃ dep vs, dep ∈ rep ∧ Owasp.vulnerabilities dep = Some vs
                      ∧ vs ≠ []
                      ∧ f = {| fileName := Owasp.fileName dep;
                               filePath := Owasp.filePath dep;
                               vulnerabilities :=
                                 map parse_vulnerability vs |})
  ∧ map (λ f, (fileName f, filePath f, length (vulnerabilities f)))
        (parseVulnerableDependencies rep)
    = map (λ dep, (Owasp.fileName dep, Owasp.filePath dep,
                   length (default [] (Owasp.vulnerabilities dep))))
          (filter (λ dep, 0 < length (default [] (Owasp.vulnerabilities dep)))
                  rep).
Proof.
  split; [|split].
  - intros f Hf. apply elem_of_parse in Hf as (dep & vs & _ & _ & Hne & ->).
    simpl. by destruct vs.
  - apply elem_of_parse.
  - unfold parseVulnerableDependencies. rewrite map_map. simpl.
    rewrite (list_filter_iff _ _ rep has_vulnerabilities_length).
    apply map_ext. intros dep. by rewrite length_map.
Qed.

Lemma parsed_findings_nonempty_witness :
  let rep :=
    [ {| Owasp.fileName := "qs:6.5.2"; Owasp.filePath := "";
         Owasp.vulnerabilities :=
           Some [ {| Owasp.source := "NPM"; Owasp.name := "GHSA";
                     Owasp.severity := "high";
                     Owasp.cvssv2 := None; Owasp.cvssv3 := Some (75 # 10)%Q |} ] |};
      {| Owasp.fileName := "ms:2.1.3"; Owasp.filePath := "";
         Owasp.vulnerabilities := Some [] |};
      {| Owasp.fileName := "debug:4.3.4"; Owasp.filePath := "";
         Owasp.vulnerabilities := None |} ] in
  map (λ f, (fileName f, filePath f, length (vulnerabilities f)))
      (parseVulnerableDependencies rep)
  = [("qs:6.5.2", "", 1)]
  ∧ ∀ f, f ∈ parseVulnerableDependencies rep → vulnerabilities f ≠ [].
Proof.
  intros rep.
  destruct (parsed_findings_nonempty rep) as (Hne & _ & Hnames).
  split; [|exact Hne]. rewrite Hnames. reflexivity.
Defined.

(** X16.  A vulnerability of a scanned file whose name starts with the
    dependency name bounds the score from below: by its [cvssv2] score
    when it has one, whatever its [cvssv3], and by [0] when it has
    neither [cvssv2] nor [cvssv3], so that such a dependency never
    keeps the score [-1]. *)
Theorem score_from_scanner_report (rep : list Owasp.dependency)
    (dep : Owasp.dependency) (vs : list Owasp.vulnerability)
    (v : Owasp.vulnerability) (n : string) :
  dep ∈ rep → Owasp.vulnerabilities dep = Some vs → v ∈ vs →
  JS.startsWith (Owasp.fileName dep) n = true →
  let score :=
    getHighestCvssScoreForDependency n (parseVulnerableDependencies rep) in
  (JS.toNumber (CVSS_Score v) <= score)%Q
  ∧ (∀ s2, Owasp.cvssv2 v = Some s2 → (s2 <= score)%Q)
  ∧ (Owasp.cvssv2 v = None → Owasp.cvssv3 v = None → (0 <= score)%Q).
Proof.
  intros Hdep Hvs Hv Hpre score.
  assert ((JS.toNumber (CVSS_Score v) <= score)%Q) as Hle.
  { destruct (getHighestCvssScore_bounds n (parseVulnerableDependencies rep))
      as (_ & Hup & _).
    apply (Hup {| fileName := Owasp.fileName dep;
                  filePath := Owasp.filePath dep;
                  vulnerabilities := map parse_vulnerability vs |}
               (parse_vulnerability v)).
    - apply elem_of_parse. exists dep, vs.
      split; [done|]. split; [done|]. split; [|done].
      intros ->. by apply elem_of_nil in Hv.
    - done.
    - apply list_elem_of_In, in_map_iff. exists v.
      by rewrite <- list_elem_of_In. }
  split; [exact Hle|]. unfold CVSS_Score in Hle. split.
  - intros s2 H2. by rewrite H2 in Hle.
  - intros H2 H3. by rewrite H2, H3 in Hle.
Qed.

Lemma score_from_scanner_report_witness :
  let v := {| Owasp.source := "NPM"; Owasp.name := "GHSA";
              Owasp.severity := "high";
              Owasp.cvssv2 := None; Owasp.cvssv3 := None |} in
  let dep := {| Owasp.fileName := "qs:6.5.2"; Owasp.filePath := "";
                Owasp.vulnerabilities := Some [v] |} in
  (0 <= getHighestCvssScoreForDependency "qs"
          (parseVulnerableDependencies [dep]))%Q.
Proof.
  intros v dep.
  apply (score_from_scanner_report [dep] dep [v] v "qs");
    try reflexivity; by apply list_elem_of_singleton.
Defined.

(** X17.  With the findings of step 5, a name is tagged vulnerable
    exactly when the scanner report has a file with at least one
    vulnerability whose stripped name is that name; a file without
    vulnerabilities tags nothing. *)
Theorem vulnerable_tag_from_scanner_report (rep : list Owasp.dependency)
    (n : string) dev wp lag (ri : gmap string Q) :
  VULNERABLE ∈ dependencyTypes
    (classifyDependency n dev wp lag
       (map vulnerable_name (parseVulnerableDependencies rep))
       (parseVulnerableDependencies rep) ri)
  ↔ ∃ dep, dep ∈ rep ∧ has_vulnerabilities dep = true
           ∧ n = JS.replace
                   (JS.replace (JS.split_head (Owasp.fileName dep) ":")
                               ".min" "")
                   ".js" "".
Proof.
  rewrite classifyDependency_types. split.
  - intros [[? _]|[[? _]|[[? _]|[_ Hin]]]]; try discriminate.
    apply list_elem_of_In, in_map_iff in Hin as (f & <- & Hf).
    apply list_elem_of_In, elem_of_parse in Hf as (dep & vs & Hdep & Hvs & Hne & ->).
    exists dep. split; [done|]. split; [|done].
    unfold has_vulnerabilities. rewrite Hvs. by destruct vs.
  - intros (dep & Hdep & Hhas & ->). do 3 right. split; [done|].
    unfold has_vulnerabilities in Hhas.
    destruct (Owasp.vulnerabilities dep) as [vs|] eqn:Hvs; [|done].
    apply list_elem_of_In, in_map_iff.
    exists {| fileName := Owasp.fileName dep; filePath := Owasp.filePath dep;
              vulnerabilities := map parse_vulnerability vs |}.
    split; [done|]. apply list_elem_of_In, elem_of_parse.
    exists dep, vs. split; [done|]. split; [done|]. split; [|done].
    by destruct vs.
Qed.

(** ** Step 3: from [package.json] to the list of step 6 *)

Lemma string_of_uint_digits (d : Decimal.uint) :
  all_digits (NilEmpty.string_of_uint d) = true.
Proof. induction d; simpl; done. Qed.

Lemma array_keys_digits {A} (a : list A) (n : string) :
  n ∈ JS.array_keys a → all_digits n = true.
Proof.
  unfold JS.array_keys. intros Hn.
  apply list_elem_of_In, in_map_iff in Hn as (i & <- & _).
  apply string_of_uint_digits.
Qed.

(** X19.  Step 6 takes [Object.keys] of the array written by step 3, so
    its within-project list holds one decimal index per entry of the
    array: in the report a name is tagged within-project only if it is
    such an index, and a name with a character that is not a digit is
    never tagged. *)
Theorem within_project_tag_on_indices (fuel : nat) (d : documents)
    (r : report) (n : string) (rec : DependencyRecord) :
  step6_constructPath fuel d = Some r →
  dependencies_of r !! n = Some rec →
  WITHIN_PROJECT ∈ dependencyTypes rec →
  n ∈ JS.array_keys (step3_output d) ∧ all_digits n = true
  ∧ length (JS.array_keys (step3_output d)) = length (step3_output d).
Proof.
  intros Hr Hn Hw.
  rewrite (report_record_classified fuel d r n rec Hr Hn) in Hw.
  unfold classify_in, classify in Hw.
  apply classifyDependency_types in Hw
    as [[? _]|[[_ Hin]|[[? _]|[? _]]]]; try discriminate.
  split; [done|]. split; [by eapply array_keys_digits|].
  unfold JS.array_keys. by rewrite length_map, length_seq.
Qed.

Lemma within_project_tag_on_indices_witness :
  ∃ r rec, step6_constructPath 10 index_documents = Some r
           ∧ dependencies_of r !! "0" = Some rec
           ∧ WITHIN_PROJECT ∈ dependencyTypes rec
           ∧ "0" ∈ JS.array_keys (step3_output index_documents).
Proof.
  destruct (step6_constructPath 10 index_documents) as [r|] eqn:Hr;
    [|by vm_compute in Hr].
  destruct (dependencies_of r !! "0") as [rec|] eqn:Hrec.
  - exists r, rec. split; [done|]. split; [done|].
    assert (WITHIN_PROJECT ∈ dependencyTypes rec) as Hw.
    { vm_compute in Hr. injection Hr as <-. vm_compute in Hrec.
      injection Hrec as <-. apply list_elem_of_singleton. reflexivity. }
    split; [exact Hw|].
    exact (proj1 (within_project_tag_on_indices 10 index_documents r "0" rec
                    Hr Hrec Hw)).
  - vm_compute in Hr. injection Hr as <-. vm_compute in Hrec. discriminate.
Defined.

(** X20.  A path whose names all hold a character that is not a digit
    is left unchanged by the simplification that step 6 applies, for
    every array written by step 3. *)
Theorem simplifyPath_in_pipeline (p withinProject : list string) :
  Forall (λ x, all_digits x = false) p →
  simplifyPath p (JS.array_keys withinProject) = p.
Proof.
  intros H. rewrite simplifyPath_from.
  induction H as [|x p Hx _ IH]; simpl; [done|].
  destruct (JS.includes (JS.array_keys withinProject) x) eqn:E.
  - apply includes_elem_of, array_keys_digits in E. congruence.
  - by rewrite IH.
Qed.

Lemma simplifyPath_in_pipeline_witness :
  ∃ a, step3_withinProjectDeps
         (Some {| pj_dependencies :=
                    Some [("core", "file:../core"); ("qs", "^6.0.0")];
                  pj_devDependencies := Some [("util", "file:../util")] |})
         (Some ["core"; "qs"; "util"])
       = Some a
       ∧ simplifyPath ["core"; "util"; "qs"] (JS.array_keys a)
         = ["core"; "util"; "qs"].
Proof.
  eexists. split; [reflexivity|].
  apply simplifyPath_in_pipeline. repeat constructor.
Defined.

(** ** Library download *)

Lemma filter_all {A} (P : A → Prop) `{∀ x, Decision (P x)} (l : list A) :
  Forall P l → filter P l = l.
Proof.
  induction 1 as [|x l Hx _ IH]; [done|].
  by rewrite filter_cons_True, IH.
Qed.

(** X21.  [downloadSpecificVersions] fetches at most
    [versionsToDownload] versions, in the order of the list, all among
    its last [versionsToDownload] entries and none whose directory
    [v<version>] already exists; with at most [versionsToDownload]
    versions and no directory yet, it fetches all of them. *)
Theorem download_bounds (versions alreadyDownloaded : list string) :
  let fetched := downloadSpecificVersions versions alreadyDownloaded in
  length fetched ≤ versionsToDownload
  ∧ fetched `sublist_of` versions
  ∧ (∀ v, v ∈ fetched →
       v ∈ drop (length versions - versionsToDownload) versions
       ∧ "v" +:+ v ∉ alreadyDownloaded)
  ∧ (length versions ≤ versionsToDownload → alreadyDownloaded = [] →
     fetched = versions).
Proof.
  intros fetched. subst fetched. unfold downloadSpecificVersions, slice_last.
  split; [|split; [|split]].
  - etransitivity; [apply sublist_length, sublist_filter|].
    rewrite length_drop. unfold versionsToDownload. lia.
  - etransitivity; [apply sublist_filter|apply sublist_drop].
  - intros v Hv. apply list_elem_of_filter in Hv as [Hnot Hv].
    split; [done|]. intros Hin. apply includes_elem_of in Hin. congruence.
  - intros Hlen ->.
    replace (length versions - versionsToDownload) with 0 by lia.
    simpl. apply filter_all, List.Forall_forall. by intros.
Qed.

Lemma download_bounds_witness :
  downloadSpecificVersions ["1.0.0"; "1.1.0"; "2.0.0"] [] = ["1.0.0"; "1.1.0"; "2.0.0"].
Proof.
  apply (download_bounds ["1.0.0"; "1.1.0"; "2.0.0"] []).
  - vm_compute. lia.
  - reflexivity.
Defined.

(** ** Step 4: the lag document *)

Lemma obj_set_keys {A} (o : list (string * A)) (k k' : string) (v : A) :
  k' ∈ JS.keys (obj_set o k v) ↔ k' = k ∨ k' ∈ JS.keys o.
Proof.
  unfold JS.keys. induction o as [|[k0 v0] o IH]; simpl.
  - rewrite list_elem_of_singleton, elem_of_nil. tauto.
  - destruct (String.eqb k k0) eqn:E; simpl.
    + apply String.eqb_eq in E as ->. rewrite !elem_of_cons. tauto.
    + rewrite !elem_of_cons, IH. tauto.
Qed.

Section Step4Properties.

Context {versions : Type}.
Context (version : tree → string).
Context (fetchPackageVersions : string → option versions).
Context (calculateIfADependencyIsLagging :
           versions → string → string → bool * Q).

Local Abbreviation round :=
  (step4_round version fetchPackageVersions calculateIfADependencyIsLagging).

Lemma step4_fold_keys (names : list string) (entries : list (string * tree))
    (acc : lag_document) :
  (∀ e, e ∈ entries → e.1 ∈ names) →
  ((∀ k, k ∈ JS.keys (laggingDependencies acc) →
         is_Some (releaseInterval acc !! k))
   ∧ (∀ k, is_Some (releaseInterval acc !! k) →
           k ∈ names ∧ is_Some (fetchPackageVersions k))) →
  (∀ k, k ∈ JS.keys (laggingDependencies (fold_left round entries acc)) →
        is_Some (releaseInterval (fold_left round entries acc) !! k))
  ∧ (∀ k, is_Some (releaseInterval (fold_left round entries acc) !! k) →
          k ∈ names ∧ is_Some (fetchPackageVersions k)).
Proof.
  revert acc. induction entries as [|e entries IH]; intros acc Hnames Hacc;
    [done|].
  simpl. apply IH.
  - intros e' He'. apply Hnames. by apply elem_of_cons; right.
  - destruct Hacc as [Hlag Hri]. unfold step4_round.
    destruct (fetchPackageVersions e.1) as [vs|] eqn:Hfetch; [|by split].
    unfold map_assign, obj_assign. simpl.
    destruct (String.eqb e.1 "__proto__");
      [split; [|done];
       by destruct (calculateIfADependencyIsLagging vs (version e.2) e.1).1|].
    split.
    + intros k Hk. rewrite lookup_insert. case_decide; [done|].
      apply Hlag.
      destruct (calculateIfADependencyIsLagging vs (version e.2) e.1).1;
        [|done].
      apply obj_set_keys in Hk as [->|Hk]; [done|done].
    + intros k. rewrite lookup_insert. case_decide.
      * subst k. intros _. split; [|by rewrite Hfetch].
        apply Hnames. by apply elem_of_cons; left.
      * apply Hri.
Qed.

Lemma step4_keys_inv (dependencyTree : tree) (lag : lag_document) :
  step4_lagDeps version fetchPackageVersions
    calculateIfADependencyIsLagging dependencyTree = Some lag →
  (∀ k, k ∈ JS.keys (laggingDependencies lag) →
        is_Some (releaseInterval lag !! k))
  ∧ (∀ k, is_Some (releaseInterval lag !! k) →
          k ∈ JS.keys (deps_or_empty dependencyTree)
          ∧ is_Some (fetchPackageVersions k)).
Proof.
  unfold step4_lagDeps, deps_or_empty.
  destruct (dependencies dependencyTree) as [entries|]; [|done].
  intros [= <-]. simpl. apply step4_fold_keys.
  - intros e He. unfold JS.keys. apply list_elem_of_In, in_map.
    by apply list_elem_of_In.
  - simpl. split.
    + intros k Hk. by apply elem_of_nil in Hk.
    + intros k [? Hk]. by rewrite lookup_empty in Hk.
Qed.

(** X22.  Step 4 fails exactly when the tree has no [dependencies]
    field.  Otherwise every package it lists as lagging has a release
    interval, and every package with a release interval is a direct
    dependency of the root for which the registry answered. *)
Theorem step4_keys (dependencyTree : tree) :
  (step4_lagDeps version fetchPackageVersions
     calculateIfADependencyIsLagging dependencyTree = None
   ↔ dependencies dependencyTree = None)
  ∧ ∀ lag,
      step4_lagDeps version fetchPackageVersions
        calculateIfADependencyIsLagging dependencyTree = Some lag →
      (∀ k, k ∈ JS.keys (laggingDependencies lag) →
            is_Some (releaseInterval lag !! k))
      ∧ (∀ k, is_Some (releaseInterval lag !! k) →
              k ∈ JS.keys (deps_or_empty dependencyTree)
              ∧ is_Some (fetchPackageVersions k)).
Proof.
  split; [|apply step4_keys_inv].
  unfold step4_lagDeps. by destruct (dependencies dependencyTree).
Qed.

(** X23.  When the lag document of a run was produced by step 4 from
    the same tree, a package that is not a direct dependency of the
    root, wherever it sits in the tree, is never tagged lagging; its
    interval is [-1], unless its name is one that objects inherit from
    [Object.prototype], for which the interval is the inherited
    value. *)
Theorem transitive_dependency_has_no_lag (fuel : nat) (d : documents)
    (r : report) (n : string) (rec : DependencyRecord) :
  step4_lagDeps version fetchPackageVersions
    calculateIfADependencyIsLagging (step1_output d) = Some (step4_output d) →
  step6_constructPath fuel d = Some r →
  dependencies_of r !! n = Some rec →
  n ∉ JS.keys (deps_or_empty (step1_output d)) →
  (LAGGING ∉ dependencyTypes rec)
  ∧ intervals rec = (if JS.inherited n then Inherited n else Days (-1)).
Proof.
  intros Hlag Hr Hn Hdirect.
  destruct (step4_keys_inv _ _ Hlag) as [Hl Hri].
  rewrite (report_record_classified fuel d r n rec Hr Hn).
  unfold classify_in, classify. split.
  - rewrite classifyDependency_types.
    intros [[? _]|[[? _]|[[_ Hin]|[? _]]]]; try discriminate.
    by destruct (Hri n (Hl n Hin)).
  - rewrite classifyDependency_intervals.
    destruct (releaseInterval (step4_output d) !! n) as [v|] eqn:Hv; [|done].
    by destruct (Hri n (mk_is_Some _ _ Hv)).
Qed.

End Step4Properties.

Lemma step4_keys_witness :
  step4_lagDeps (λ _, "4.0.0") (λ _ : string, Some ())
    (λ _ _ _, (true, 30%Q)) example_tree = Some example_lag
  ∧ is_Some (releaseInterval example_lag !! "mocha").
Proof.
  assert (step4_lagDeps (λ _, "4.0.0") (λ _ : string, Some ())
            (λ _ _ _, (true, 30%Q)) example_tree = Some example_lag) as H
    by (vm_compute; reflexivity).
  split; [exact H|].
  apply (proj1 (proj2 (step4_keys (λ _, "4.0.0") (λ _ : string, Some ())
                         (λ _ _ _, (true, 30%Q)) example_tree)
                      example_lag H)).
  vm_compute. apply elem_of_cons. right. apply elem_of_cons. by left.
Defined.

Lemma transitive_dependency_has_no_lag_witness :
  ∃ r rec, step6_constructPath 40 lag_documents = Some r
           ∧ dependencies_of r !! "qs" = Some rec
           ∧ (LAGGING ∉ dependencyTypes rec)
           ∧ intervals rec = Days (-1).
Proof.
  destruct (step6_constructPath 40 lag_documents) as [r|] eqn:Hr;
    [|by vm_compute in Hr].
  destruct (dependencies_of r !! "qs") as [rec|] eqn:Hrec.
  - exists r, rec. split; [done|]. split; [done|].
    apply (transitive_dependency_has_no_lag (λ _, "4.0.0")
             (λ _ : string, Some ()) (λ _ _ _, (true, 30%Q))
             40 lag_documents r "qs" rec); [by vm_compute|done|done|].
    apply (bool_decide_unpack _). by vm_compute.
  - vm_compute in Hr. injection Hr as <-. vm_compute in Hrec. discriminate.
Defined.
